(** * A shallow embedding of the text transformation library

    Sources: [src/python/text_transformer.py] (stages and the pipeline) and
    [src/python/filter_factory.py] ([FilterFactory.from_dict]).

    Text is modelled as a list of 7-bit characters ([ascii]); on that range
    Python's Unicode character classes ([str.isupper], [\s], [\w], ...) agree
    with the ASCII definitions below.  The [re] patterns that the stages build
    (escaped literals, [\s+], [[a-zA-Z]{m,}], [\b] and one capture group) are
    interpreted by a small backtracking matcher that follows [sre]: greedy
    single-character repeats back off one character at a time, [re.sub] scans
    left to right, and after an empty match the next match may not be empty
    at the same position ([must_advance]). *)

From Stdlib Require Import List Ascii String Bool Arith Lia ZArith.
From Stdlib Require Import Sorting.Permutation Sorting.Sorted.
Import ListNotations.

(** ** Characters *)

Definition text := list ascii.
Definition txt (s : string) : text := list_ascii_of_string s.

Definition code (c : ascii) : nat := nat_of_ascii c.
Definition in_range (lo hi : nat) (c : ascii) : bool :=
  (lo <=? code c) && (code c <=? hi).
Definition is_upper (c : ascii) : bool := in_range 65 90 c.
Definition is_lower (c : ascii) : bool := in_range 97 122 c.
Definition is_digit (c : ascii) : bool := in_range 48 57 c.
Definition is_alpha (c : ascii) : bool := is_upper c || is_lower c.
Definition is_alnum (c : ascii) : bool := is_alpha c || is_digit c.
(** [\w] for [str] patterns: alphanumerics and the underscore. *)
Definition is_word (c : ascii) : bool := is_alnum c || Ascii.eqb c "_"%char.
(** [\s] and [str.split()]: [\t\n\v\f\r], the separators [\x1c-\x1f], space. *)
Definition is_space (c : ascii) : bool := in_range 9 13 c || in_range 28 32 c.
Definition to_upper (c : ascii) : ascii :=
  if is_lower c then ascii_of_nat (code c - 32) else c.
Definition to_lower (c : ascii) : ascii :=
  if is_upper c then ascii_of_nat (code c + 32) else c.

(** [str.upper()] and [str.isupper()]. *)
Definition py_upper (s : text) : text := map to_upper s.
Definition py_isupper (s : text) : bool :=
  existsb is_upper s && negb (existsb is_lower s).

(** ** [same_cap] and [same_cap_replacer] *)

Definition same_cap (original replacement : text) : text :=
  match original, replacement with
  | [], _ => replacement
  | _, [] => replacement
  | o0 :: _, r0 :: rest =>
      if py_isupper original then py_upper replacement
      else if is_upper o0 then to_upper r0 :: rest
      else to_lower r0 :: rest
  end.

(** ** Regular expressions *)

Inductive cclass := CSpace | CAlpha.

Definition class_pred (k : cclass) : ascii -> bool :=
  match k with CSpace => is_space | CAlpha => is_alpha end.

(** [ALit c]: an escaped literal; [ARep k lo]: the greedy repeat [k{lo,}];
    [ABound]: [\b]; [AMark]: the end of capture group 1 (the group of each
    pattern below opens at the start of the pattern or right after a
    literal, its start is recovered from the match). *)
Inductive atom :=
| ALit (c : ascii)
| ARep (k : cclass) (lo : nat)
| ABound
| AMark.

Record pattern := { atoms : list atom; icase : bool }.

(** [re.IGNORECASE] compares the lower-cased characters. *)
Definition char_eq (ic : bool) (a b : ascii) : bool :=
  if ic then Ascii.eqb (to_lower a) (to_lower b) else Ascii.eqb a b.

Definition word_at (t : text) (i : nat) : bool :=
  match nth_error t i with Some c => is_word c | None => false end.

Definition at_boundary (t : text) (i : nat) : bool :=
  xorb (match i with 0 => false | S j => word_at t j end) (word_at t i).

Fixpoint run_len (p : ascii -> bool) (l : text) : nat :=
  match l with
  | [] => 0
  | c :: l' => if p c then S (run_len p l') else 0
  end.

(** Try the repeat counts [lo + d], [lo + d - 1], ..., [lo]. *)
Fixpoint greedy_from {A} (f : nat -> option A) (lo d : nat) : option A :=
  match d with
  | 0 => f lo
  | S d' =>
      match f (lo + S d') with
      | Some r => Some r
      | None => greedy_from f lo d'
      end
  end.

Definition greedy {A} (f : nat -> option A) (lo avail : nat) : option A :=
  if avail <? lo then None else greedy_from f lo (avail - lo).

(** Match [ps] at position [i]; [accept] is the check [sre] makes when the
    whole pattern has matched (used for [must_advance]).  Returns the end
    position and the recorded group ends. *)
Fixpoint mtch (ic : bool) (accept : nat -> bool) (t : text) (ps : list atom)
    (i : nat) (caps : list nat) : option (nat * list nat) :=
  match ps with
  | [] => if accept i then Some (i, caps) else None
  | ALit c :: ps' =>
      match nth_error t i with
      | Some d => if char_eq ic c d then mtch ic accept t ps' (S i) caps else None
      | None => None
      end
  | ARep k lo :: ps' =>
      greedy (fun j => mtch ic accept t ps' (i + j) caps) lo
             (run_len (class_pred k) (skipn i t))
  | ABound :: ps' => if at_boundary t i then mtch ic accept t ps' i caps else None
  | AMark :: ps' => mtch ic accept t ps' i (caps ++ [i])
  end.

(** [sre_search]: try the start positions [j, j+1, ..., List.length t]; only the
    first attempt is subject to [must_advance]. *)
Fixpoint search_from (p : pattern) (t : text) (must_advance : bool)
    (j fuel : nat) : option (nat * nat * list nat) :=
  match fuel with
  | 0 => None
  | S f =>
      match mtch (icase p) (fun e => negb (must_advance && (e =? j))) t (atoms p) j [] with
      | Some (e, caps) => Some (j, e, caps)
      | None => search_from p t false (S j) f
      end
  end.

Definition search (p : pattern) (t : text) (must_advance : bool) (pos : nat)
    : option (nat * nat * list nat) :=
  search_from p t must_advance pos (S (List.length t - pos)).

Definition slice (t : text) (a b : nat) : text := firstn (b - a) (skipn a t).

(** A replacement callable receives the match: the subject, its start, its
    end and the recorded group ends. *)
Definition replacer := text -> nat -> nat -> list nat -> text.

(** [pattern.sub(repl, text)] ([pattern_subx]); each iteration either moves
    [last] forward or is an empty match followed by an iteration that does,
    so [2 * List.length t + 3] iterations are enough. *)
Fixpoint sub_loop (p : pattern) (r : replacer) (t : text) (last : nat)
    (adv : bool) (fuel : nat) : text :=
  match fuel with
  | 0 => skipn last t
  | S f =>
      match search p t adv last with
      | None => skipn last t
      | Some (b, e, caps) =>
          slice t last b ++ r t b e caps ++ sub_loop p r t e (e =? b) f
      end
  end.

Definition sub (p : pattern) (r : replacer) (t : text) : text :=
  sub_loop p r t 0 false (2 * List.length t + 3).

(** ** [RegexTransformer] *)

Definition rule := (pattern * replacer)%type.

Definition regex_transform (rules : list rule) (t : text) : text :=
  fold_left (fun acc (pr : rule) => sub (fst pr) (snd pr) acc) rules t.

(** ** [Substitution] and [CharacterSubstitution] *)

(** A Python dict [{original: replacement}] in insertion order. *)
Definition mapping := list (text * text).

(** [sorted(mappings.items(), key=lambda x: len(x[0]), reverse=True)]: a
    stable sort, equal lengths keep their insertion order. *)
Fixpoint insert_by_len (x : text * text) (l : mapping) : mapping :=
  match l with
  | [] => [x]
  | y :: l' => if List.length (fst y) <? List.length (fst x) then x :: l
               else y :: insert_by_len x l'
  end.

Definition sort_by_len_desc (m : mapping) : mapping :=
  fold_left (fun acc x => insert_by_len x acc) m [].

Definition has_space (s : text) : bool :=
  existsb (fun c => Ascii.eqb c " "%char) s.

(** [str.split()] with no argument. *)
Fixpoint split_ws_aux (s cur : text) : list text :=
  match s with
  | [] => match cur with [] => [] | _ => [rev cur] end
  | c :: s' =>
      if is_space c
      then (match cur with [] => [] | _ => [rev cur] end) ++ split_ws_aux s' []
      else split_ws_aux s' (c :: cur)
  end.
Definition py_split_ws (s : text) : list text := split_ws_aux s [].

(** [re.escape(w)]. *)
Definition lit (s : text) : list atom := map ALit s.

(** [r'\s+'.join(...)]. *)
Fixpoint join_ws (ws : list text) : list atom :=
  match ws with
  | [] => []
  | [w] => lit w
  | w :: ws' => lit w ++ ARep CSpace 1 :: join_ws ws'
  end.

Definition substitution_atoms (original : text) (word_boundary : bool) : list atom :=
  let core := if has_space original then join_ws (py_split_ws original)
              else lit original in
  if word_boundary then ABound :: core ++ [ABound] else core.

(** [same_cap_replacer(replacement)] or [lambda m, r=replacement: r]. *)
Definition make_replacer (preserve_case : bool) (replacement : text) : replacer :=
  if preserve_case then fun t b e _ => same_cap (slice t b e) replacement
  else fun _ _ _ _ => replacement.

Definition compile_one (word_boundary preserve_case : bool) (kv : text * text) : rule :=
  ({| atoms := substitution_atoms (fst kv) word_boundary; icase := preserve_case |},
   make_replacer preserve_case (snd kv)).

(** [Substitution._compile_mappings]: the rules of [Substitution(mappings, ...)]. *)
Definition compile_mappings (m : mapping) (word_boundary preserve_case : bool) : list rule :=
  map (compile_one word_boundary preserve_case) (sort_by_len_desc m).

Definition Substitution (m : mapping) (word_boundary preserve_case : bool) : list rule :=
  compile_mappings m word_boundary preserve_case.

Definition char_compile_one (preserve_case : bool) (kv : text * text) : rule :=
  ({| atoms := lit (fst kv); icase := preserve_case |},
   make_replacer preserve_case (snd kv)).

(** [CharacterSubstitution.__init__]. *)
Definition CharacterSubstitution (m : mapping) (preserve_case : bool) : list rule :=
  map (char_compile_one preserve_case) (sort_by_len_desc m).

(** ** [SuffixReplacer] and [PrefixReplacer] *)

(** [([a-zA-Z]{m,})] + [re.escape(suffix)] + [\b], [re.IGNORECASE]. *)
Definition suffix_atoms (suffix : text) (min_stem : nat) : list atom :=
  ARep CAlpha min_stem :: AMark :: lit suffix ++ [ABound].

(** [m.group(1) + r]: group 1 runs from the match start to the mark. *)
Definition suffix_rule (suffix replacement : text) (min_stem : nat) : rule :=
  ({| atoms := suffix_atoms suffix min_stem; icase := true |},
   fun t b _ caps => slice t b (hd b caps) ++ replacement).

Definition SuffixReplacer_add_rule (rules : list rule) (suffix replacement : text)
    (min_stem : nat) : list rule :=
  rules ++ [suffix_rule suffix replacement min_stem].

(** [\b] + [re.escape(prefix)] + [([a-zA-Z]+)]: group 1 opens after the
    prefix ([List.length prefix] characters after the match start) and ends with
    the match. *)
Definition prefix_rule (prefix replacement : text) : rule :=
  ({| atoms := ABound :: lit prefix ++ [ARep CAlpha 1]; icase := true |},
   fun t b e _ => replacement ++ slice t (b + List.length prefix) e).

Definition PrefixReplacer_add_rule (rules : list rule) (prefix replacement : text)
    : list rule :=
  rules ++ [prefix_rule prefix replacement].

(** ** Python errors *)

Inductive py_error := ZeroDivisionError | ValueError | IndexError.

Inductive res (A : Type) :=
| Ok (a : A)
| Raise (e : py_error).
Arguments Ok {A} a.
Arguments Raise {A} e.

Definition bind {A B} (m : res A) (k : A -> res B) : res B :=
  match m with Ok a => k a | Raise e => Raise e end.

Notation "x <- m ;; k" := (bind m (fun x => k))
  (at level 61, m at next level, right associativity).

(** [a % b] on ints. *)
Definition py_mod (a b : Z) : res Z :=
  if (b =? 0)%Z then Raise ZeroDivisionError else Ok (Z.modulo a b).

(** [l[k]] for the non-negative indices the code computes. *)
Definition py_index {A} (l : list A) (k : Z) : res A :=
  match nth_error l (Z.to_nat k) with Some x => Ok x | None => Raise IndexError end.

(** ** [str.split(sep)] *)

Fixpoint prefixb (p t : text) : bool :=
  match p, t with
  | [], _ => true
  | a :: p', b :: t' => Ascii.eqb a b && prefixb p' t'
  | _ :: _, [] => false
  end.

Definition cons_head (c : ascii) (parts : list text) : list text :=
  match parts with [] => [[c]] | x :: xs => (c :: x) :: xs end.

(** Scan left to right, cutting at each non-overlapping occurrence; a
    non-empty separator consumes at least one character per step. *)
Fixpoint split_fuel (fuel : nat) (sep t : text) : list text :=
  match fuel with
  | 0 => [t]
  | S f =>
      match t with
      | [] => [[]]
      | c :: t' =>
          if prefixb sep t then [] :: split_fuel f sep (skipn (List.length sep) t)
          else cons_head c (split_fuel f sep t')
      end
  end.

Definition py_split (t sep : text) : res (list text) :=
  match sep with
  | [] => Raise ValueError
  | _ => Ok (split_fuel (List.length t) sep t)
  end.

(** ** [SentenceAugmenter] *)

Record aug_rule := { punct : text; additions : list text; frequency : Z }.

(** [self.rules] and [self._counters] (a dict keyed by punctuation). *)
Record SentenceAugmenter := { aug_rules : list aug_rule; counters : list (text * Z) }.

Fixpoint text_eqb (a b : text) : bool :=
  match a, b with
  | [], [] => true
  | x :: a', y :: b' => Ascii.eqb x y && text_eqb a' b'
  | _, _ => false
  end.

Fixpoint lookup_counter (k : text) (d : list (text * Z)) : option Z :=
  match d with
  | [] => None
  | (k', v) :: d' => if text_eqb k k' then Some v else lookup_counter k d'
  end.

(** [d[k] = v]: overwrite in place, or append a new key. *)
Fixpoint set_counter (k : text) (v : Z) (d : list (text * Z)) : list (text * Z) :=
  match d with
  | [] => [(k, v)]
  | (k', v') :: d' => if text_eqb k k' then (k', v) :: d' else (k', v') :: set_counter k v d'
  end.

Definition aug_new : SentenceAugmenter := {| aug_rules := []; counters := [] |}.

Definition aug_add_rule (st : SentenceAugmenter) (p : text) (adds : list text)
    (freq : Z) : SentenceAugmenter :=
  {| aug_rules := aug_rules st ++ [{| punct := p; additions := adds; frequency := freq |}];
     counters := if (1 <? freq)%Z then set_counter p 0 (counters st) else counters st |}.

(** The [freq == 1] branch: [part + punct + additions[i % len(additions)]]
    for every part but the last, then the last part. *)
Fixpoint always_loop (p : text) (adds : list text) (i : nat) (parts : list text)
    : res text :=
  match parts with
  | [] => Ok []
  | [lastp] => Ok lastp
  | part :: rest =>
      k <- py_mod (Z.of_nat i) (Z.of_nat (List.length adds)) ;;
      a <- py_index adds k ;;
      tl <- always_loop p adds (S i) rest ;;
      Ok (part ++ p ++ a ++ tl)
  end.

(** The [else] branch: the running counter, returned with the text. *)
Fixpoint every_nth_loop (p : text) (adds : list text) (freq counter : Z)
    (parts : list text) : res (text * Z) :=
  match parts with
  | [] => Ok ([], counter)
  | [lastp] => Ok (lastp, counter)
  | part :: rest =>
      m <- py_mod counter freq ;;
      a <- (if (m =? 0)%Z
            then k <- py_mod counter (Z.of_nat (List.length adds)) ;; py_index adds k
            else Ok []) ;;
      r <- every_nth_loop p adds freq (counter + 1) rest ;;
      Ok (part ++ p ++ a ++ fst r, snd r)
  end.

Definition apply_aug_rule (cs : list (text * Z)) (r : aug_rule) (t : text)
    : res (text * list (text * Z)) :=
  parts <- py_split t (punct r) ;;
  if (frequency r =? 1)%Z then
    t' <- always_loop (punct r) (additions r) 0 parts ;; Ok (t', cs)
  else
    let c := match lookup_counter (punct r) cs with Some c => c | None => 0%Z end in
    rc <- every_nth_loop (punct r) (additions r) (frequency r) c parts ;;
    Ok (fst rc, set_counter (punct r) (snd rc) cs).

Fixpoint aug_rules_loop (rs : list aug_rule) (cs : list (text * Z)) (t : text)
    : res (text * list (text * Z)) :=
  match rs with
  | [] => Ok (t, cs)
  | r :: rs' => tc <- apply_aug_rule cs r t ;; aug_rules_loop rs' (snd tc) (fst tc)
  end.

(** [SentenceAugmenter.transform]: the text and the instance after the
    call.  After an exception the Python instance keeps the counters of the
    rules that completed; the model only reports the exception. *)
Definition aug_transform (st : SentenceAugmenter) (t : text)
    : res (text * SentenceAugmenter) :=
  tc <- aug_rules_loop (aug_rules st) (counters st) t ;;
  Ok (fst tc, {| aug_rules := aug_rules st; counters := snd tc |}).

(** ** [GlitchTransformer]

    The stage is modelled over any character type with Python's
    [str.isalnum], and over any generator state: [random.Random(seed)] is
    [seed_state seed], and [randint] and [choice] are written, as in
    [random.py], through [Random._randbelow]. *)

Section Glitch.
Variable Ch : Type.
Variable isalnum : Ch -> bool.
Variable GLITCH_CHARS : list Ch.
Variable St : Type.
Variable seed_state : Z -> St.
Variable randbelow : nat -> St -> nat * St.

(** [randint(a, b) = randrange(a, b + 1) = a + _randbelow(b - a + 1)]. *)
Definition randint (a b : nat) (s : St) : nat * St :=
  let (k, s') := randbelow (b + 1 - a) s in (a + k, s').

(** [choice(seq) = seq[_randbelow(len(seq))]]. *)
Definition choice (seq : list Ch) (dflt : Ch) (s : St) : Ch * St :=
  let (k, s') := randbelow (List.length seq) s in (nth k seq dflt, s').

Record Glitch := { percentage : Z; rng : St }.

Definition glitch_new (pct seed : Z) : Glitch := {| percentage := pct; rng := seed_state seed |}.

(** The loop of [transform]: [char.isalnum() and randint(1, 100) <= pct]
    draws only for alphanumerics. *)
Fixpoint glitch_loop (pct : Z) (s : St) (t : list Ch) : list Ch * St :=
  match t with
  | [] => ([], s)
  | c :: t' =>
      if isalnum c then
        let (d, s1) := randint 1 100 s in
        if (Z.of_nat d <=? pct)%Z then
          let (g, s2) := choice GLITCH_CHARS c s1 in
          let (o, s3) := glitch_loop pct s2 t' in (g :: o, s3)
        else
          let (o, s2) := glitch_loop pct s1 t' in (c :: o, s2)
      else
        let (o, s1) := glitch_loop pct s t' in (c :: o, s1)
  end.

Definition glitch_transform (g : Glitch) (t : list Ch) : list Ch * Glitch :=
  let (o, s) := glitch_loop (percentage g) (rng g) t in
  (o, {| percentage := percentage g; rng := s |}).

End Glitch.

(** A small linear-congruential state machine, used only to run the glitch
    loop on concrete inputs. *)
Definition lcg_seed (seed : Z) : Z := seed mod 65537.
Definition lcg_randbelow (n : nat) (s : Z) : nat * Z :=
  (Z.to_nat (s mod Z.of_nat n), (75 * s + 74) mod 65537)%Z.
Definition lcg_glitch_chars : list ascii := ["#"%char; "@"%char].

(** ** [TextFilter] and [FilterFactory.from_dict] *)

(** The configuration dictionary: [None] is an absent key; values have the
    shapes the code reads. *)
Inductive suffix_value :=
| SuffixPlain (replacement : text)
| SuffixDetailed (replacement : text) (min_stem : option nat).

Inductive glitch_value :=
| GlitchInt (pct : Z)
| GlitchDict (pct : option Z) (seed : option Z).

Record aug_rule_cfg := {
  cfg_punctuation : text;
  cfg_additions : list text;
  cfg_frequency : option Z }.

Record config := {
  cfg_substitutions : option mapping;
  cfg_characters : option mapping;
  cfg_suffixes : option (list (text * suffix_value));
  cfg_prefixes : option mapping;
  cfg_sentence_augmentation : option (list aug_rule_cfg);
  cfg_glitch : option glitch_value;
  cfg_word_boundary : option bool;
  cfg_preserve_case : option bool;
  cfg_prefix_text : option text;
  cfg_suffix_text : option text }.

(** The transformers [from_dict] adds; [StGlitch pct seed] is
    [GlitchTransformer(percentage=pct, seed=seed)]. *)
Inductive stage :=
| StSubstitution (rules : list rule)
| StCharacters (rules : list rule)
| StSuffix (rules : list rule)
| StPrefix (rules : list rule)
| StAugmenter (a : SentenceAugmenter)
| StGlitch (pct seed : Z).

Record TextFilter := { transformers : list stage; tf_prefix : text; tf_suffix : text }.

Definition get_or {A} (o : option A) (d : A) : A :=
  match o with Some a => a | None => d end.

Definition add_suffix_cfg (rules : list rule) (kv : text * suffix_value) : list rule :=
  match snd kv with
  | SuffixDetailed r ms => SuffixReplacer_add_rule rules (fst kv) r (get_or ms 2)
  | SuffixPlain r => SuffixReplacer_add_rule rules (fst kv) r 2
  end.

Definition add_prefix_cfg (rules : list rule) (kv : text * text) : list rule :=
  PrefixReplacer_add_rule rules (fst kv) (snd kv).

Definition add_aug_cfg (st : SentenceAugmenter) (r : aug_rule_cfg) : SentenceAugmenter :=
  aug_add_rule st (cfg_punctuation r) (cfg_additions r) (get_or (cfg_frequency r) 1%Z).

Definition glitch_params (g : glitch_value) : Z * Z :=
  match g with
  | GlitchDict p s => (get_or p 100%Z, get_or s 42%Z)
  | GlitchInt p => (p, 42%Z)
  end.

Definition from_dict (c : config) : TextFilter :=
  let wb := get_or (cfg_word_boundary c) true in
  let pc := get_or (cfg_preserve_case c) true in
  let s1 := match cfg_substitutions c with
            | Some m => [StSubstitution (Substitution m wb pc)] | None => [] end in
  let s2 := match cfg_characters c with
            | Some m => [StCharacters (CharacterSubstitution m pc)] | None => [] end in
  let s3 := match cfg_suffixes c with
            | Some m => [StSuffix (fold_left add_suffix_cfg m [])] | None => [] end in
  let s4 := match cfg_prefixes c with
            | Some m => [StPrefix (fold_left add_prefix_cfg m [])] | None => [] end in
  let s5 := match cfg_sentence_augmentation c with
            | Some l => [StAugmenter (fold_left add_aug_cfg l aug_new)] | None => [] end in
  let s6 := match cfg_glitch c with
            | Some g => [StGlitch (fst (glitch_params g)) (snd (glitch_params g))]
            | None => [] end in
  {| transformers := s1 ++ s2 ++ s3 ++ s4 ++ s5 ++ s6;
     tf_prefix := get_or (cfg_prefix_text c) [];
     tf_suffix := get_or (cfg_suffix_text c) [] |}.

(** ** [character_translation] *)

(** The dict built by [str.maketrans(x, y)]: one entry per character of [x],
    a later position overwriting an earlier one. *)
Fixpoint tr_set (k v : ascii) (d : list (ascii * ascii)) : list (ascii * ascii) :=
  match d with
  | [] => [(k, v)]
  | (k', v') :: d' => if Ascii.eqb k k' then (k', v) :: d' else (k', v') :: tr_set k v d'
  end.

Fixpoint tr_get (k : ascii) (d : list (ascii * ascii)) : option ascii :=
  match d with
  | [] => None
  | (k', v) :: d' => if Ascii.eqb k k' then Some v else tr_get k d'
  end.

Definition tr_fold (l : list (ascii * ascii)) (d : list (ascii * ascii)) :=
  fold_left (fun d kv => tr_set (fst kv) (snd kv) d) l d.

(** [str.maketrans(x, y)] raises [ValueError] unless [len(x) == len(y)]. *)
Definition maketrans (x y : text) : res (list (ascii * ascii)) :=
  if List.length x =? List.length y
  then Ok (tr_fold (combine x y) [])
  else Raise ValueError.

(** [text.translate(table)]: characters without an entry are kept. *)
Definition translate (t : text) (d : list (ascii * ascii)) : text :=
  map (fun c => match tr_get c d with Some c' => c' | None => c end) t.

Definition character_translation (t from_chars to_chars : text) : res text :=
  d <- maketrans from_chars to_chars ;; Ok (translate t d).

(** ** [TextFilter.transform]

    Over any type of transformers ([Transformer] is a protocol): each one's
    [transform] may update the transformer (the augmenter's counters, the
    glitch generator) or raise.  After an exception the model only reports
    the exception. *)
Section TextFilterRun.
Variable T : Type.
Variable transform : T -> text -> res (text * T).

Fixpoint run_transformers (ts : list T) (t : text) : res (text * list T) :=
  match ts with
  | [] => Ok (t, [])
  | x :: ts' =>
      r <- transform x t ;;
      rs <- run_transformers ts' (fst r) ;;
      Ok (fst rs, snd r :: snd rs)
  end.

(** [self.prefix + result + self.suffix]. *)
Definition TextFilter_transform (ts : list T) (prefix suffix t : text) : res (text * list T) :=
  r <- run_transformers ts t ;; Ok (prefix ++ fst r ++ suffix, snd r).
End TextFilterRun.

(** The objects [from_dict] adds, with their state.  The glitch stage emits
    characters outside the 7-bit model, so its state type, constructor and
    [transform] are parameters here. *)
Section Runtime.
Variable GSt : Type.
Variable glitch_init : Z -> Z -> GSt.
Variable glitch_step : GSt -> text -> text * GSt.

Inductive rstage :=
| RRegex (rs : list rule)
| RAug (a : SentenceAugmenter)
| RGlitch (g : GSt).

Definition rstage_of (s : stage) : rstage :=
  match s with
  | StSubstitution rs | StCharacters rs | StSuffix rs | StPrefix rs => RRegex rs
  | StAugmenter a => RAug a
  | StGlitch pct seed => RGlitch (glitch_init pct seed)
  end.

Definition rstage_transform (s : rstage) (t : text) : res (text * rstage) :=
  match s with
  | RRegex rs => Ok (regex_transform rs t, RRegex rs)
  | RAug a => r <- aug_transform a t ;; Ok (fst r, RAug (snd r))
  | RGlitch g => Ok (fst (glitch_step g t), RGlitch (snd (glitch_step g t)))
  end.

(** The first [transform] call of a freshly built [TextFilter]. *)
Definition filter_transform (f : TextFilter) (t : text) : res (text * list rstage) :=
  TextFilter_transform rstage rstage_transform (map rstage_of (transformers f))
    (tf_prefix f) (tf_suffix f) t.
End Runtime.

Arguments RRegex {GSt} rs.
Arguments RAug {GSt} a.
Arguments RGlitch {GSt} g.

(** ** [DiscoFilter._build_filter] (src/python/disco_filter.py)

    The slang dictionary loaded from JSON: [None] is an absent key;
    [sl_affixes = Some None] is an [affixes] entry without [suffixes]. *)
Record slang := {
  sl_phrases : option mapping;
  sl_exclamations : option mapping;
  sl_words : option mapping;
  sl_affixes : option (option mapping);
  sl_sentence_fillers : option (list text) }.

(** [d[k] = v] on a dict with string keys: overwrite in place, or append. *)
Fixpoint map_set (k v : text) (d : mapping) : mapping :=
  match d with
  | [] => [(k, v)]
  | (k', v') :: d' => if text_eqb k k' then (k', v) :: d' else (k', v') :: map_set k v d'
  end.

Fixpoint map_get (k : text) (d : mapping) : option text :=
  match d with
  | [] => None
  | (k', v) :: d' => if text_eqb k k' then Some v else map_get k d'
  end.

(** [d.update(m)]. *)
Definition dict_update (d m : mapping) : mapping :=
  fold_left (fun acc kv => map_set (fst kv) (snd kv) acc) m d.

Definition disco_mappings (s : slang) : mapping :=
  let m1 := match sl_phrases s with Some m => dict_update [] m | None => [] end in
  let m2 := match sl_exclamations s with Some m => dict_update m1 m | None => m1 end in
  match sl_words s with Some m => dict_update m2 m | None => m2 end.

Definition disco_build_filter (s : slang) : TextFilter :=
  let sub_stage := [StSubstitution (Substitution (disco_mappings s) true true)] in
  let suf_stage := match sl_affixes s with
                   | Some (Some sm) =>
                       [StSuffix (fold_left (fun rs kv => SuffixReplacer_add_rule rs (fst kv) (snd kv) 2)
                                    sm [])]
                   | _ => [] end in
  let aug_stage := match sl_sentence_fillers s with
                   | Some f => [StAugmenter (aug_add_rule aug_new (txt ".") f 3)]
                   | None => [] end in
  {| transformers := sub_stage ++ suf_stage ++ aug_stage; tf_prefix := []; tf_suffix := [] |}.

(** * Vocabulary of the properties *)

Definition all_ascii : list ascii := map ascii_of_nat (seq 0 256).

(** A rule table entry [x] is ordered before [y]: its key is not shorter. *)
Definition len_ge (x y : text * text) : Prop := List.length (fst y) <= List.length (fst x).

(** The literal [s] occurs at position [i] of [t], compared as [re.IGNORECASE]
    ([ic = true]) or exactly. *)
Fixpoint lit_at (ic : bool) (s t : text) (i : nat) : bool :=
  match s with
  | [] => true
  | c :: s' =>
      match nth_error t i with
      | Some d => char_eq ic c d && lit_at ic s' t (S i)
      | None => false
      end
  end.

(** For a suffix rule: the characters [i .. g) are a run of at least
    [min_stem] ASCII letters, the suffix follows at [g] (ignoring case), and
    [\b] holds right after the suffix. *)
Definition stem_ok (suffix : text) (min_stem : nat) (t : text) (i g : nat) : Prop :=
  i + min_stem <= g /\ g <= List.length t /\
  Forall (fun c => is_alpha c = true) (slice t i g) /\
  g + List.length suffix <= List.length t /\
  map to_lower (slice t g (g + List.length suffix)) = map to_lower suffix /\
  at_boundary t (g + List.length suffix) = true.

(** [p in t] for strings. *)
Definition contains (p t : text) : Prop := exists u v, t = u ++ p ++ v.

(** Non-overlapping occurrences of [sep], scanned left to right. *)
Fixpoint count_occ_fuel (fuel : nat) (sep t : text) : nat :=
  match fuel with
  | 0 => 0
  | S f =>
      match t with
      | [] => 0
      | _ :: t' =>
          if prefixb sep t then S (count_occ_fuel f sep (skipn (List.length sep) t))
          else count_occ_fuel f sep t'
      end
  end.
Definition count_occ (sep t : text) : nat := count_occ_fuel (List.length t) sep t.

(** [parts] joined by [p], the [k]-th boundary followed by [f k]. *)
Fixpoint join_parts (p : text) (f : nat -> text) (k : nat) (parts : list text) : text :=
  match parts with
  | [] => []
  | [lastp] => lastp
  | x :: rest => x ++ p ++ f k ++ join_parts p f (S k) rest
  end.

(** What an every-[N]th rule appends at counter value [c]. *)
Definition augmentation (adds : list text) (N c : Z) : text :=
  if (c mod N =? 0)%Z then nth (Z.to_nat (c mod Z.of_nat (List.length adds))) adds []
  else [].

Inductive stage_kind := KSubstitution | KCharacters | KSuffix | KPrefix | KAugmenter | KGlitch.

Definition kind_of (s : stage) : stage_kind :=
  match s with
  | StSubstitution _ => KSubstitution
  | StCharacters _ => KCharacters
  | StSuffix _ => KSuffix
  | StPrefix _ => KPrefix
  | StAugmenter _ => KAugmenter
  | StGlitch _ _ => KGlitch
  end.

Definition present {A} (o : option A) (k : stage_kind) : list stage_kind :=
  match o with Some _ => [k] | None => [] end.

(** The stage kinds for the keys present in [c], in the order of [from_dict]. *)
Definition present_kinds (c : config) : list stage_kind :=
  present (cfg_substitutions c) KSubstitution ++ present (cfg_characters c) KCharacters ++
  present (cfg_suffixes c) KSuffix ++ present (cfg_prefixes c) KPrefix ++
  present (cfg_sentence_augmentation c) KAugmenter ++ present (cfg_glitch c) KGlitch.

(** The words [w0, w1, ...] of a phrase written with the separators
    [sp1, sp2, ...]: [w0 ++ sp1 ++ w1 ++ sp2 ++ ...]. *)
Definition spaced (w0 : text) (prs : list (text * text)) : text :=
  w0 ++ List.concat (map (fun sw => fst sw ++ snd sw) prs).

(** A word of a phrase: non-empty, without whitespace; a separator:
    non-empty whitespace. *)
Definition word_ok (w : text) : Prop := w <> [] /\ Forall (fun c => is_space c = false) w.
Definition sep_ok (sp : text) : Prop := sp <> [] /\ Forall (fun c => is_space c = true) sp.

(** The stages of a text transformation that leave every input unchanged. *)
(** The stage of kind [k] was built from a rule table that is present and
    empty; the [glitch] value is a percentage or a settings dict, not a
    rule table. *)
Definition built_from_empty_table (c : config) (k : stage_kind) : Prop :=
  match k with
  | KSubstitution => cfg_substitutions c = Some []
  | KCharacters => cfg_characters c = Some []
  | KSuffix => cfg_suffixes c = Some []
  | KPrefix => cfg_prefixes c = Some []
  | KAugmenter => cfg_sentence_augmentation c = Some []
  | KGlitch => False
  end.

Definition stage_is_identity (s : stage) : Prop :=
  match s with
  | StSubstitution rs | StCharacters rs | StSuffix rs | StPrefix rs =>
      forall t, regex_transform rs t = t
  | StAugmenter a => forall t, aug_transform a t = Ok (t, a)
  | StGlitch _ _ => False
  end.

(** * Properties *)

(** ** Characters: a finite check over the 256 values of [ascii] *)

Lemma in_all_ascii : forall a, In a all_ascii.
Proof.
  intro a. unfold all_ascii. rewrite <- (ascii_nat_embedding a).
  apply in_map, in_seq. pose proof (nat_ascii_bounded a). lia.
Qed.

Lemma forallb_all_ascii : forall f : ascii -> bool,
  forallb f all_ascii = true -> forall a, f a = true.
Proof.
  intros f H a. rewrite forallb_forall in H. apply H, in_all_ascii.
Qed.

(** Characters with the same lower-case form are in the same classes. *)
Lemma lower_classes : forall a b, to_lower a = to_lower b ->
  is_word a = is_word b /\ is_space a = is_space b /\ is_alpha a = is_alpha b.
Proof.
  intros a b Hab.
  assert (H := forallb_all_ascii
    (fun a => forallb (fun b => implb (Ascii.eqb (to_lower a) (to_lower b))
       (Bool.eqb (is_word a) (is_word b) && Bool.eqb (is_space a) (is_space b)
        && Bool.eqb (is_alpha a) (is_alpha b))) all_ascii)
    ltac:(vm_compute; reflexivity) a).
  cbv beta in H. rewrite forallb_forall in H. specialize (H b (in_all_ascii b)).
  rewrite Hab, Ascii.eqb_refl in H. simpl in H.
  apply andb_prop in H as [H H3]. apply andb_prop in H as [H1 H2].
  apply Bool.eqb_prop in H1, H2, H3. auto.
Qed.

Lemma py_isupper_iff : forall s, py_isupper s = true <->
  Exists (fun c => is_upper c = true) s /\ Forall (fun c => is_lower c = false) s.
Proof.
  intro s. unfold py_isupper. rewrite andb_true_iff, negb_true_iff, existsb_exists,
    Exists_exists, Forall_forall.
  split.
  - intros [H1 H2]. split; [exact H1|]. intros x Hx.
    destruct (is_lower x) eqn:E; [|reflexivity].
    exfalso. assert (existsb is_lower s = true) by (apply existsb_exists; eauto).
    congruence.
  - intros [H1 H2]. split; [exact H1|].
    destruct (existsb is_lower s) eqn:E; [|reflexivity].
    apply existsb_exists in E as [x [Hx Hl]]. rewrite H2 in Hl; auto.
Qed.

(** ** Sorting the rule table *)

Lemma insert_by_len_perm : forall x l, Permutation (insert_by_len x l) (x :: l).
Proof.
  intros x l. induction l as [|y l IH]; simpl; [reflexivity|].
  destruct (List.length (fst y) <? List.length (fst x)); [reflexivity|].
  rewrite IH. apply perm_swap.
Qed.

Lemma sort_by_len_desc_perm_aux : forall m acc,
  Permutation (fold_left (fun acc x => insert_by_len x acc) m acc) (m ++ acc).
Proof.
  induction m as [|x m IH]; intro acc; simpl; [reflexivity|].
  rewrite IH, insert_by_len_perm. symmetry. apply Permutation_middle.
Qed.

Lemma insert_by_len_sorted : forall x l,
  StronglySorted len_ge l -> StronglySorted len_ge (insert_by_len x l).
Proof.
  intros x l. induction l as [|y l IH]; intro H; simpl.
  - repeat constructor.
  - inversion H as [|? ? Hl Hall]; subst.
    destruct (List.length (fst y) <? List.length (fst x)) eqn:E.
    + apply Nat.ltb_lt in E. constructor; [exact H|].
      constructor; [unfold len_ge; lia|].
      eapply Forall_impl; [|exact Hall]. unfold len_ge; intros; lia.
    + apply Nat.ltb_ge in E. constructor; [auto|].
      eapply Permutation_Forall; [symmetry; apply insert_by_len_perm|].
      constructor; [unfold len_ge; lia|exact Hall].
Qed.

Lemma sort_by_len_desc_sorted_aux : forall m acc,
  StronglySorted len_ge acc ->
  StronglySorted len_ge (fold_left (fun acc x => insert_by_len x acc) m acc).
Proof.
  induction m as [|x m IH]; intros acc H; simpl; auto using insert_by_len_sorted.
Qed.

Lemma sort_by_len_desc_perm : forall m, Permutation (sort_by_len_desc m) m.
Proof.
  intro m. unfold sort_by_len_desc. rewrite sort_by_len_desc_perm_aux, app_nil_r.
  reflexivity.
Qed.

Lemma sort_by_len_desc_sorted : forall m, StronglySorted len_ge (sort_by_len_desc m).
Proof. intro m. apply sort_by_len_desc_sorted_aux. constructor. Qed.

Lemma StronglySorted_app_r : forall (R : text * text -> text * text -> Prop) l1 l2,
  StronglySorted R (l1 ++ l2) -> StronglySorted R l2.
Proof.
  intros R l1 l2. induction l1 as [|x l1 IH]; simpl; intro H; auto.
  apply StronglySorted_inv in H as [H _]. auto.
Qed.

(** A rule of a longer key precedes every rule of a shorter key. *)
Lemma sort_by_len_desc_longer_first : forall m l1 l2 (kv1 kv2 : text * text),
  sort_by_len_desc m = l1 ++ kv2 :: l2 ->
  List.length (fst kv2) < List.length (fst kv1) -> ~ In kv1 l2.
Proof.
  intros m l1 l2 kv1 kv2 Heq Hlt Hin.
  pose proof (sort_by_len_desc_sorted m) as H. rewrite Heq in H.
  apply StronglySorted_app_r, StronglySorted_inv in H as [_ Hall].
  rewrite Forall_forall in Hall. specialize (Hall kv1 Hin). unfold len_ge in Hall. lia.
Qed.

Lemma regex_transform_cons : forall r rs t,
  regex_transform (r :: rs) t = regex_transform rs (sub (fst r) (snd r) t).
Proof. reflexivity. Qed.

Lemma regex_transform_nil : forall t, regex_transform [] t = t.
Proof. reflexivity. Qed.

Lemma regex_transform_map : forall (f : text * text -> rule) l t,
  regex_transform (map f l) t =
  fold_left (fun acc kv => sub (fst (f kv)) (snd (f kv)) acc) l t.
Proof.
  intros f l. induction l as [|x l IH]; intro t; simpl; auto.
Qed.

(** ** Matching under [re.IGNORECASE] sees the text only through [to_lower] *)

Section IgnoreCase.
Variables t t' : text.
Hypothesis Hlow : map to_lower t = map to_lower t'.

Lemma nth_error_lower : forall i,
  option_map to_lower (nth_error t i) = option_map to_lower (nth_error t' i).
Proof. intro i. rewrite <- !nth_error_map, Hlow. reflexivity. Qed.

Lemma length_lower : List.length t = List.length t'.
Proof. rewrite <- (length_map to_lower t), Hlow, length_map. reflexivity. Qed.

Lemma word_at_lower : forall i, word_at t i = word_at t' i.
Proof.
  intro i. pose proof (nth_error_lower i) as H. unfold word_at.
  destruct (nth_error t i), (nth_error t' i); simpl in H; try discriminate; auto.
  injection H as H. apply lower_classes in H. tauto.
Qed.

Lemma at_boundary_lower : forall i, at_boundary t i = at_boundary t' i.
Proof.
  intro i. unfold at_boundary. rewrite word_at_lower.
  destruct i; [reflexivity|]. rewrite word_at_lower. reflexivity.
Qed.

End IgnoreCase.

Lemma run_len_lower : forall k l l', map to_lower l = map to_lower l' ->
  run_len (class_pred k) l = run_len (class_pred k) l'.
Proof.
  intro k. induction l as [|a l IH]; intros [|b l'] H; simpl in H; try discriminate; auto.
  injection H as Hab H. simpl. rewrite (IH l' H).
  apply lower_classes in Hab. destruct k; simpl.
  - destruct Hab as [_ [-> _]]. reflexivity.
  - destruct Hab as [_ [_ ->]]. reflexivity.
Qed.

Lemma greedy_from_ext : forall {A} (f g : nat -> option A) lo d,
  (forall j, f j = g j) -> greedy_from f lo d = greedy_from g lo d.
Proof.
  intros A f g lo d H. induction d as [|d IH]; simpl; rewrite ?H, ?IH; reflexivity.
Qed.

Lemma greedy_ext : forall {A} (f g : nat -> option A) lo L,
  (forall j, f j = g j) -> greedy f lo L = greedy g lo L.
Proof.
  intros. unfold greedy. destruct (L <? lo); auto using greedy_from_ext.
Qed.

Lemma mtch_lower : forall ps acc t t' i caps, map to_lower t = map to_lower t' ->
  mtch true acc t ps i caps = mtch true acc t' ps i caps.
Proof.
  induction ps as [|a ps IH]; intros acc t t' i caps H; simpl; [reflexivity|].
  destruct a as [c|k lo| |].
  - pose proof (nth_error_lower t t' H i) as Hi.
    destruct (nth_error t i) as [d|], (nth_error t' i) as [d'|]; simpl in Hi;
      try discriminate; auto.
    injection Hi as Hi. unfold char_eq. rewrite Hi.
    destruct (Ascii.eqb (to_lower c) (to_lower d')); auto.
  - rewrite (run_len_lower k (skipn i t) (skipn i t')) by (rewrite <- !skipn_map, H; reflexivity).
    apply greedy_ext. intro j. auto.
  - rewrite (at_boundary_lower t t' H). destruct (at_boundary t' i); auto.
  - auto.
Qed.

Lemma search_from_lower : forall p t t' adv j fuel,
  icase p = true -> map to_lower t = map to_lower t' ->
  search_from p t adv j fuel = search_from p t' adv j fuel.
Proof.
  intros p t t' adv j fuel Hic H. revert adv j.
  induction fuel as [|f IH]; intros adv j; simpl; [reflexivity|].
  rewrite Hic, (mtch_lower _ _ t t' _ _ H), IH. reflexivity.
Qed.

Lemma search_lower : forall p t t' adv i,
  icase p = true -> map to_lower t = map to_lower t' ->
  search p t adv i = search p t' adv i.
Proof.
  intros. unfold search. rewrite (length_lower t t') by assumption.
  apply search_from_lower; assumption.
Qed.

(** ** Claims about [Substitution], [CharacterSubstitution] and [same_cap] *)

(** C1: the rules of a [Substitution] stage are compiled from the table
    re-sorted by decreasing key length (a permutation of the table) and run
    in that order, so a rule of a longer key comes before every rule of a
    shorter key; with [{"going to": "gonna", "going": "goin"}], in either
    insertion order, ["I am going to run"] becomes ["I am gonna run"], not
    ["I am goin to run"]. *)
Theorem substitution_longest_first : forall (m : mapping) (wb pc : bool),
  Substitution m wb pc = map (compile_one wb pc) (sort_by_len_desc m) /\
  StronglySorted len_ge (sort_by_len_desc m) /\
  Permutation (sort_by_len_desc m) m /\
  (forall t, regex_transform (Substitution m wb pc) t =
     fold_left (fun acc kv => sub (fst (compile_one wb pc kv)) (snd (compile_one wb pc kv)) acc)
       (sort_by_len_desc m) t) /\
  (forall l1 l2 (kv1 kv2 : text * text), sort_by_len_desc m = l1 ++ kv2 :: l2 ->
     List.length (fst kv2) < List.length (fst kv1) -> ~ In kv1 l2) /\
  regex_transform (Substitution [(txt "going to", txt "gonna"); (txt "going", txt "goin")] true true)
    (txt "I am going to run") = txt "I am gonna run" /\
  regex_transform (Substitution [(txt "going", txt "goin"); (txt "going to", txt "gonna")] true true)
    (txt "I am going to run") = txt "I am gonna run" /\
  txt "I am gonna run" <> txt "I am goin to run".
Proof.
  intros m wb pc. split; [reflexivity|]. split; [apply sort_by_len_desc_sorted|].
  split; [apply sort_by_len_desc_perm|]. split; [intro t; apply regex_transform_map|].
  split; [intros; eapply sort_by_len_desc_longer_first; eauto|].
  split; [vm_compute; reflexivity|]. split; [vm_compute; reflexivity|].
  discriminate.
Qed.

(** C2 (as stated, refuted): with [CharacterSubstitution({"ab": "xc", "c": "d"})]
    the replacement ["xc"] of the first rule contains the key ["c"] of the
    later rule, and one [transform] of ["ab"] gives ["xd"], not ["xc"]; for
    [Substitution({"going to": "go to", "to": "2"})], ["going to"] gives
    ["go 2"], not ["go to"]. *)
Lemma rescan_counterexample :
  regex_transform (CharacterSubstitution [(txt "ab", txt "xc"); (txt "c", txt "d")] true) (txt "ab")
    = txt "xd" /\ txt "xd" <> txt "xc" /\
  regex_transform (Substitution [(txt "going to", txt "go to"); (txt "to", txt "2")] true true)
    (txt "going to") = txt "go 2" /\ txt "go 2" <> txt "go to".
Proof. split; [vm_compute; reflexivity|]. split; [discriminate|].
  split; [vm_compute; reflexivity|discriminate]. Qed.

(** C2 (amended): a [Substitution] or [CharacterSubstitution] stage runs its
    rules one after the other, each rule's replace-all scanning the whole
    output of the rules before it; text that an earlier rule introduced is
    therefore matched again by a later rule of the same stage (e.g.
    [{"ab": "xc", "c": "d"}] maps ["ab"] to ["xd"]). *)
Theorem rules_run_sequentially : forall (m : mapping) (wb pc : bool) (t : text),
  regex_transform (Substitution m wb pc) t =
    fold_left (fun acc kv => sub (fst (compile_one wb pc kv)) (snd (compile_one wb pc kv)) acc)
      (sort_by_len_desc m) t /\
  regex_transform (CharacterSubstitution m pc) t =
    fold_left (fun acc kv => sub (fst (char_compile_one pc kv)) (snd (char_compile_one pc kv)) acc)
      (sort_by_len_desc m) t /\
  (forall r rs u, regex_transform (r :: rs) u = regex_transform rs (sub (fst r) (snd r) u)) /\
  regex_transform (CharacterSubstitution [(txt "ab", txt "xc"); (txt "c", txt "d")] true) (txt "ab")
    = txt "xd".
Proof.
  intros m wb pc t. split; [apply regex_transform_map|].
  split; [apply regex_transform_map|]. split; [reflexivity|].
  vm_compute; reflexivity.
Qed.

(** C3: [same_cap original replacement] returns [replacement] when either is
    empty; the replacement upper-cased when [original] has an upper-case
    letter and no lower-case one; otherwise the replacement with its first
    character upper-cased when the first character of [original] is upper
    case, else with it lower-cased, the rest as supplied; so [{"hello": "hey"}]
    maps ["Hello"], ["HELLO"], ["hello"] to ["Hey"], ["HEY"], ["hey"]. *)
Theorem same_cap_shape : forall original replacement : text,
  ((original = [] \/ replacement = []) -> same_cap original replacement = replacement) /\
  (original <> [] -> replacement <> [] ->
     Exists (fun c => is_upper c = true) original ->
     Forall (fun c => is_lower c = false) original ->
     same_cap original replacement = py_upper replacement) /\
  (forall o0 o' r0 r', original = o0 :: o' -> replacement = r0 :: r' ->
     ~ (Exists (fun c => is_upper c = true) original /\
        Forall (fun c => is_lower c = false) original) ->
     is_upper o0 = true -> same_cap original replacement = to_upper r0 :: r') /\
  (forall o0 o' r0 r', original = o0 :: o' -> replacement = r0 :: r' ->
     ~ (Exists (fun c => is_upper c = true) original /\
        Forall (fun c => is_lower c = false) original) ->
     is_upper o0 = false -> same_cap original replacement = to_lower r0 :: r') /\
  regex_transform (Substitution [(txt "hello", txt "hey")] true true) (txt "Hello") = txt "Hey" /\
  regex_transform (Substitution [(txt "hello", txt "hey")] true true) (txt "HELLO") = txt "HEY" /\
  regex_transform (Substitution [(txt "hello", txt "hey")] true true) (txt "hello") = txt "hey".
Proof.
  intros o r. split.
  { intros [-> | ->]; [reflexivity|]. destruct o; reflexivity. }
  split.
  { intros Ho Hr He Hf. destruct o as [|o0 o']; [congruence|].
    destruct r as [|r0 r']; [congruence|].
    assert (Hu : py_isupper (o0 :: o') = true) by (apply py_isupper_iff; auto).
    simpl. rewrite Hu. reflexivity. }
  split.
  { intros o0 o' r0 r' -> -> Hn Hu.
    assert (Hp : py_isupper (o0 :: o') = false).
    { destruct (py_isupper (o0 :: o')) eqn:E; [|reflexivity].
      exfalso. apply Hn, py_isupper_iff, E. }
    simpl. rewrite Hp, Hu. reflexivity. }
  split.
  { intros o0 o' r0 r' -> -> Hn Hu.
    assert (Hp : py_isupper (o0 :: o') = false).
    { destruct (py_isupper (o0 :: o')) eqn:E; [|reflexivity].
      exfalso. apply Hn, py_isupper_iff, E. }
    simpl. rewrite Hp, Hu. reflexivity. }
  split; [vm_compute; reflexivity|]. split; vm_compute; reflexivity.
Qed.

(** C4 (as stated, refuted): with [preserve_case] off, [Substitution({"hello":
    "hey"})] leaves ["Hello"] unchanged (the key is matched case-sensitively),
    and so does [CharacterSubstitution({"a": "b"})] with ["A"]. *)
Lemma case_sensitive_when_not_preserving :
  regex_transform (Substitution [(txt "hello", txt "hey")] true false) (txt "Hello") = txt "Hello" /\
  regex_transform (Substitution [(txt "hello", txt "hey")] true false) (txt "hello") = txt "hey" /\
  regex_transform (CharacterSubstitution [(txt "a", txt "b")] false) (txt "A") = txt "A".
Proof. split; [vm_compute; reflexivity|]. split; vm_compute; reflexivity. Qed.

(** C4 (amended): both stages compile every rule with [re.IGNORECASE] exactly
    when [preserve_case] is on.  Then where a rule matches does not depend on
    the capitalisation of the input, and each match is rewritten through
    [same_cap]; with [preserve_case] off, keys match case-sensitively and the
    literal replacement is used. *)
Theorem ignorecase_iff_preserve_case : forall (m : mapping) (wb pc : bool),
  Forall (fun r => icase (fst r) = pc) (Substitution m wb pc) /\
  Forall (fun r => icase (fst r) = pc) (CharacterSubstitution m pc) /\
  (pc = true -> forall r, In r (Substitution m wb pc) \/ In r (CharacterSubstitution m pc) ->
     forall t t' adv i, map to_lower t = map to_lower t' ->
     search (fst r) t adv i = search (fst r) t' adv i) /\
  (forall r, In r (Substitution m wb pc) \/ In r (CharacterSubstitution m pc) ->
     exists repl, forall t b e caps,
       snd r t b e caps = if pc then same_cap (slice t b e) repl else repl) /\
  (pc = false -> forall r, In r (Substitution m wb pc) \/ In r (CharacterSubstitution m pc) ->
     forall t i caps acc, mtch (icase (fst r)) acc t (atoms (fst r)) i caps =
                          mtch false acc t (atoms (fst r)) i caps).
Proof.
  intros m wb pc.
  assert (Hin : forall r, In r (Substitution m wb pc) \/ In r (CharacterSubstitution m pc) ->
    exists kv : text * text, icase (fst r) = pc /\ snd r = make_replacer pc (snd kv)).
  { intros r [H|H]; apply in_map_iff in H as [kv [<- _]]; exists kv; split; reflexivity. }
  split.
  { apply Forall_forall. intros r H. destruct (Hin r (or_introl H)) as [kv [H1 _]]. exact H1. }
  split.
  { apply Forall_forall. intros r H. destruct (Hin r (or_intror H)) as [kv [H1 _]]. exact H1. }
  split.
  { intros Hpc r Hr t t' adv i Hl. destruct (Hin r Hr) as [kv [H1 _]].
    apply search_lower; congruence. }
  split.
  { intros r Hr. destruct (Hin r Hr) as [kv [_ H2]]. exists (snd kv).
    intros t b e caps. rewrite H2. unfold make_replacer. destruct pc; reflexivity. }
  { intros Hpc r Hr t i caps acc. destruct (Hin r Hr) as [kv [H1 _]]. rewrite H1, Hpc.
    reflexivity. }
Qed.

Lemma ignorecase_iff_preserve_case_witness :
  search (fst (hd (char_compile_one true (txt "", txt ""))
             (CharacterSubstitution [(txt "hello", txt "hey")] true)))
    (txt "HeLLo") false 0 =
  search (fst (hd (char_compile_one true (txt "", txt ""))
             (CharacterSubstitution [(txt "hello", txt "hey")] true)))
    (txt "hello") false 0.
Proof.
  destruct (ignorecase_iff_preserve_case [(txt "hello", txt "hey")] true true)
    as [_ [_ [H _]]].
  apply H; [reflexivity | right; simpl; left; reflexivity | vm_compute; reflexivity].
Defined.

(** ** Literals, repeats and the suffix pattern *)

Lemma mtch_lit : forall ic acc t s rest i caps,
  mtch ic acc t (lit s ++ rest) i caps =
  if lit_at ic s t i then mtch ic acc t rest (i + List.length s) caps else None.
Proof.
  intros ic acc t s. induction s as [|c s IH]; intros rest i caps; simpl.
  - rewrite Nat.add_0_r. reflexivity.
  - destruct (nth_error t i) as [d|]; [|reflexivity].
    destruct (char_eq ic c d); simpl; [|reflexivity].
    rewrite IH. replace (S i + List.length s) with (i + S (List.length s)) by lia.
    reflexivity.
Qed.

Lemma skipn_nth_error : forall (t : text) g,
  skipn g t = match nth_error t g with Some d => d :: skipn (S g) t | None => [] end.
Proof.
  induction t as [|a t IH]; intros [|g]; simpl; auto.
Qed.

Lemma lit_at_true_iff : forall s t g,
  lit_at true s t g = true <->
  List.length s <= List.length (skipn g t) /\
  map to_lower (firstn (List.length s) (skipn g t)) = map to_lower s.
Proof.
  induction s as [|c s IH]; intros t g; simpl.
  - split; [intros _; split; [lia|reflexivity] | reflexivity].
  - rewrite (skipn_nth_error t g). pose proof (IH t (S g)) as IH'.
    set (u := skipn (S g) t) in *. destruct (nth_error t g) as [d|]; simpl.
    + unfold char_eq. rewrite andb_true_iff, Ascii.eqb_eq, IH'. split.
      * intros [H1 [H2 H3]]. split; [lia|]. rewrite H1, H3. reflexivity.
      * intros [H1 H2]. injection H2 as H2 H3. repeat split; auto; lia.
    + split; [discriminate|]. intros [H _]. lia.
Qed.

Lemma run_len_le : forall p (l : text) j, j <= run_len p l ->
  j <= List.length l /\ Forall (fun c => p c = true) (firstn j l).
Proof.
  intro p. induction l as [|a l IH]; intros j H; simpl in *.
  - assert (j = 0) by lia. subst. split; [lia|constructor].
  - destruct (p a) eqn:Ha; [|assert (j = 0) by lia; subst; split; [lia|constructor]].
    destruct j as [|j]; [split; [lia|constructor]|].
    destruct (IH j ltac:(lia)) as [H1 H2]. split; [lia|]. simpl. constructor; auto.
Qed.

Lemma le_run_len : forall p (l : text) j, j <= List.length l ->
  Forall (fun c => p c = true) (firstn j l) -> j <= run_len p l.
Proof.
  intro p. induction l as [|a l IH]; intros j H1 H2; simpl in *; [lia|].
  destruct j as [|j]; [lia|]. simpl in H2. inversion H2 as [|? ? Ha Hl]; subst.
  rewrite Ha. specialize (IH j ltac:(lia) Hl). lia.
Qed.

Lemma greedy_from_some : forall {A} (f : nat -> option A) lo d r,
  greedy_from f lo d = Some r -> exists k, k <= d /\ f (lo + k) = Some r.
Proof.
  intros A f lo d r. induction d as [|d IH]; simpl; intro H.
  - exists 0. rewrite Nat.add_0_r. auto.
  - destruct (f (lo + S d)) eqn:E.
    + exists (S d). injection H as <-. auto.
    + destruct (IH H) as [k [Hk Hf]]. exists k. split; [lia|auto].
Qed.

Lemma greedy_some : forall {A} (f : nat -> option A) lo L r,
  greedy f lo L = Some r -> exists j, lo <= j <= L /\ f j = Some r.
Proof.
  intros A f lo L r. unfold greedy. destruct (L <? lo) eqn:E; [discriminate|].
  apply Nat.ltb_ge in E. intro H. apply greedy_from_some in H as [k [Hk Hf]].
  exists (lo + k). split; [lia|auto].
Qed.

(** The repeat takes the largest count that lets the rest match. *)
Lemma greedy_from_largest : forall {A} (f : nat -> option A) lo d k,
  k <= d -> f (lo + k) <> None ->
  exists k', k <= k' <= d /\ greedy_from f lo d = f (lo + k') /\ f (lo + k') <> None.
Proof.
  intros A f lo d k. induction d as [|d IH]; simpl; intros Hk Hf.
  - assert (k = 0) by lia. subst. exists 0. rewrite Nat.add_0_r in *. auto.
  - destruct (f (lo + S d)) eqn:E.
    + exists (S d). rewrite E. split; [lia|]. split; [reflexivity|discriminate].
    + assert (k <> S d) by (intro; subst; congruence).
      destruct (IH ltac:(lia) Hf) as [k' [H1 H2]]. exists k'. split; [lia|auto].
Qed.

Lemma greedy_largest : forall {A} (f : nat -> option A) lo L j,
  lo <= j <= L -> f j <> None ->
  exists j', j <= j' <= L /\ greedy f lo L = f j' /\ f j' <> None.
Proof.
  intros A f lo L j Hj Hf. unfold greedy.
  destruct (L <? lo) eqn:E; [apply Nat.ltb_lt in E; lia|].
  destruct (greedy_from_largest f lo (L - lo) (j - lo)) as [k' [H1 H2]];
    [lia| replace (lo + (j - lo)) with j by lia; exact Hf|].
  exists (lo + k'). split; [lia|exact H2].
Qed.

(** After the stem: the mark, the suffix and [\b]. *)
Lemma suffix_tail : forall acc t s g,
  mtch true acc t (AMark :: lit s ++ [ABound]) g [] =
  if lit_at true s t g && at_boundary t (g + List.length s) && acc (g + List.length s)
  then Some (g + List.length s, [g]) else None.
Proof.
  intros acc t s g. simpl. rewrite mtch_lit.
  destruct (lit_at true s t g); simpl; [|reflexivity].
  destruct (at_boundary t (g + List.length s)); simpl; [|reflexivity].
  destruct (acc (g + List.length s)); reflexivity.
Qed.

Lemma suffix_mtch : forall acc t s m i,
  mtch true acc t (suffix_atoms s m) i [] =
  greedy (fun j => mtch true acc t (AMark :: lit s ++ [ABound]) (i + j) []) m
         (run_len is_alpha (skipn i t)).
Proof. reflexivity. Qed.

Lemma slice_skipn : forall (t : text) a b, slice t a b = firstn (b - a) (skipn a t).
Proof. reflexivity. Qed.

Lemma suffix_sound : forall s m t i acc e caps, i <= List.length t ->
  mtch true acc t (suffix_atoms s m) i [] = Some (e, caps) ->
  exists g, caps = [g] /\ e = g + List.length s /\ stem_ok s m t i g.
Proof.
  intros s m t i acc e caps Hi H. rewrite suffix_mtch in H.
  apply greedy_some in H as [j [Hj H]]. rewrite suffix_tail in H.
  destruct (lit_at true s t (i + j) && at_boundary t (i + j + List.length s)
            && acc (i + j + List.length s)) eqn:E; [|discriminate].
  injection H as <- <-. apply andb_prop in E as [E _]. apply andb_prop in E as [E1 E2].
  destruct (run_len_le is_alpha (skipn i t) j ltac:(lia)) as [Hlen Hall].
  rewrite length_skipn in Hlen.
  apply lit_at_true_iff in E1 as [L1 L2]. rewrite length_skipn in L1.
  exists (i + j). split; [reflexivity|]. split; [reflexivity|].
  unfold stem_ok. rewrite !slice_skipn.
  replace (i + j - i) with j by lia.
  replace (i + j + List.length s - (i + j)) with (List.length s) by lia.
  repeat split; auto; lia.
Qed.

Lemma suffix_complete : forall s m t i g, stem_ok s m t i g ->
  exists g', g <= g' /\ stem_ok s m t i g' /\
    mtch true (fun _ => true) t (suffix_atoms s m) i [] = Some (g' + List.length s, [g']).
Proof.
  intros s m t i g [H1 [H2 [H3 [H4 [H5 H6]]]]].
  rewrite slice_skipn in H3, H5.
  replace (g + List.length s - g) with (List.length s) in H5 by lia.
  assert (Hlit : lit_at true s t g = true).
  { apply lit_at_true_iff. rewrite length_skipn. split; [lia|exact H5]. }
  assert (Hj : g - i <= run_len is_alpha (skipn i t)).
  { apply le_run_len; [rewrite length_skipn; lia | exact H3]. }
  rewrite suffix_mtch.
  destruct (greedy_largest (fun j => mtch true (fun _ => true) t (AMark :: lit s ++ [ABound]) (i + j) [])
              m (run_len is_alpha (skipn i t)) (g - i)) as [j' [Hj' [Heq Hne]]].
  - lia.
  - rewrite suffix_tail. replace (i + (g - i)) with g by lia. rewrite Hlit, H6. discriminate.
  - rewrite Heq. rewrite suffix_tail in Heq, Hne |- *.
    destruct (lit_at true s t (i + j') && at_boundary t (i + j' + List.length s)
              && true) eqn:E; [|congruence].
    exists (i + j'). split; [lia|]. split; [|reflexivity].
    assert (Hle : i <= List.length t) by lia.
    destruct (suffix_sound s m t i (fun _ => true) (i + j' + List.length s) [i + j'] Hle)
      as [g'' [Hc [_ Hok]]].
    + rewrite suffix_mtch, Heq; try rewrite E; reflexivity.
    + injection Hc as <-. exact Hok.
Qed.

Lemma search_from_none : forall p t,
  (forall j acc, j <= List.length t -> mtch (icase p) acc t (atoms p) j [] = None) ->
  forall fuel adv j, j + fuel <= S (List.length t) -> search_from p t adv j fuel = None.
Proof.
  intros p t H. induction fuel as [|f IH]; intros adv j Hj; simpl; [reflexivity|].
  rewrite H by lia. apply IH. lia.
Qed.

Lemma sub_no_match : forall p r t,
  (forall j acc, j <= List.length t -> mtch (icase p) acc t (atoms p) j [] = None) ->
  sub p r t = t.
Proof.
  intros p r t H. unfold sub. replace (2 * List.length t + 3) with (S (2 * List.length t + 2)) by lia.
  simpl. unfold search. rewrite search_from_none by (auto; lia). reflexivity.
Qed.

(** ** Claim about [SuffixReplacer] *)

(** C5: a suffix rule [(s, r, m)] matches case-insensitively at position [i]
    exactly when a run of at least [m] ASCII letters starting at [i] is followed
    by [s] and [\b] (for a suffix ending in a letter: the end of the word); the
    repeat keeps the longest such stem, and the match is replaced by the stem
    as found followed by the literal [r].  A text with no such stem is left
    unchanged: with ["ing" -> "in'"] and [min_stem = 2], ["singing"] becomes
    ["singin'"] while ["king"] (stem ["k"]) and ["ing"] stay as they are. *)
Theorem suffix_rule_matches_stems : forall (s r : text) (m : nat),
  icase (fst (suffix_rule s r m)) = true /\
  (forall t b e g, snd (suffix_rule s r m) t b e [g] = slice t b g ++ r) /\
  (forall t i acc e caps, i <= List.length t ->
     mtch true acc t (atoms (fst (suffix_rule s r m))) i [] = Some (e, caps) ->
     exists g, caps = [g] /\ e = g + List.length s /\ stem_ok s m t i g) /\
  (forall t i g, stem_ok s m t i g ->
     exists g', g <= g' /\ stem_ok s m t i g' /\
       mtch true (fun _ => true) t (atoms (fst (suffix_rule s r m))) i [] =
         Some (g' + List.length s, [g'])) /\
  (forall t, (forall i g, ~ stem_ok s m t i g) -> regex_transform [suffix_rule s r m] t = t) /\
  regex_transform [suffix_rule (txt "ing") (txt "in'") 2] (txt "singing") = txt "singin'" /\
  regex_transform [suffix_rule (txt "ing") (txt "in'") 2] (txt "SINGING") = txt "SINGin'" /\
  regex_transform [suffix_rule (txt "ing") (txt "in'") 2] (txt "king") = txt "king" /\
  regex_transform [suffix_rule (txt "ing") (txt "in'") 2] (txt "ing") = txt "ing".
Proof.
  intros s r m. split; [reflexivity|]. split; [reflexivity|].
  split; [intros; eapply suffix_sound; eauto|].
  split; [intros; apply suffix_complete; assumption|].
  split.
  { intros t Hno. simpl. apply sub_no_match. intros j acc Hj. simpl icase.
    destruct (mtch true acc t (atoms (fst (suffix_rule s r m))) j []) as [[e caps]|] eqn:E;
      [|exact E].
    exfalso. destruct (suffix_sound s m t j acc e caps Hj E) as [g [_ [_ Hok]]].
    exact (Hno j g Hok). }
  repeat split; vm_compute; reflexivity.
Qed.

Lemma suffix_rule_matches_stems_witness :
  mtch true (fun _ => true) (txt "singing") (atoms (fst (suffix_rule (txt "ing") (txt "in'") 2))) 0 []
    = Some (7, [4]) /\
  exists g, [4] = [g] /\ 7 = g + 3 /\ stem_ok (txt "ing") 2 (txt "singing") 0 g.
Proof.
  split; [vm_compute; reflexivity|].
  destruct (suffix_rule_matches_stems (txt "ing") (txt "in'") 2) as [_ [_ [H _]]].
  apply (H (txt "singing") 0 (fun _ => true) 7 [4]); [simpl; lia | vm_compute; reflexivity].
Defined.

(** ** [str.split] and the augmenter loops *)

Lemma prefixb_app : forall p v, prefixb p (p ++ v) = true.
Proof. induction p as [|a p IH]; intro v; simpl; [reflexivity|]. rewrite Ascii.eqb_refl. simpl. apply IH. Qed.

Lemma prefixb_true : forall p t, prefixb p t = true -> t = p ++ skipn (List.length p) t.
Proof.
  induction p as [|a p IH]; intros [|b t] H; simpl in *; try discriminate; auto.
  apply andb_prop in H as [H1 H2]. apply Ascii.eqb_eq in H1. subst. f_equal. auto.
Qed.

Lemma split_fuel_nonnil : forall f sep t, split_fuel f sep t <> [].
Proof.
  induction f as [|f IH]; intros sep [|c t]; simpl; try discriminate.
  destruct (prefixb sep (c :: t)); [discriminate|].
  destruct (split_fuel f sep t) eqn:E; [exfalso; exact (IH sep t E) | discriminate].
Qed.

Lemma split_count : forall f sep t,
  List.length (split_fuel f sep t) = S (count_occ_fuel f sep t).
Proof.
  induction f as [|f IH]; intros sep [|c t]; simpl; try reflexivity.
  destruct (prefixb sep (c :: t)); simpl; [rewrite IH; reflexivity|].
  rewrite <- IH. pose proof (split_fuel_nonnil f sep t).
  destruct (split_fuel f sep t); [congruence|reflexivity].
Qed.

Lemma split_no_occ : forall sep, sep <> [] -> forall f t, List.length t <= f ->
  ~ contains sep t -> split_fuel f sep t = [t].
Proof.
  intros sep Hsep. induction f as [|f IH]; intros [|c t] Hl Hn; simpl in *; auto.
  destruct (prefixb sep (c :: t)) eqn:E.
  - exfalso. apply Hn. exists [], (skipn (List.length sep) (c :: t)).
    apply prefixb_true, E.
  - rewrite IH; [reflexivity|lia|].
    intros [u [v ->]]. apply Hn. exists (c :: u), v. reflexivity.
Qed.

Lemma split_occ : forall sep, sep <> [] -> forall f t, List.length t <= f ->
  contains sep t -> exists x y rest, split_fuel f sep t = x :: y :: rest.
Proof.
  intros sep Hsep. induction f as [|f IH]; intros t Hl [u [v Ht]].
  - subst. destruct sep; [congruence|]. rewrite !length_app in Hl. simpl in Hl. lia.
  - destruct t as [|c t].
    + destruct u, sep; try discriminate; congruence.
    + simpl. destruct (prefixb sep (c :: t)) eqn:E.
      * destruct (split_fuel f sep (skipn (List.length sep) (c :: t))) as [|x rest] eqn:Es;
          [exfalso; exact (split_fuel_nonnil _ _ _ Es)|].
        exists [], x, rest. reflexivity.
      * destruct u as [|a u].
        -- simpl in Ht. rewrite Ht, prefixb_app in E. discriminate.
        -- injection Ht as <- Ht.
           destruct (IH t ltac:(simpl in Hl; lia) (ex_intro _ u (ex_intro _ v Ht)))
             as [x [y [rest Hs]]].
           rewrite Hs. exists (c :: x), y, rest. reflexivity.
Qed.

Lemma py_split_nonempty : forall sep t, sep <> [] ->
  py_split t sep = Ok (split_fuel (List.length t) sep t).
Proof. intros [|a sep] t H; [congruence|reflexivity]. Qed.

Lemma join_parts_ext : forall p f g k parts, (forall j, f j = g j) ->
  join_parts p f k parts = join_parts p g k parts.
Proof.
  intros p f g k parts H. revert k.
  induction parts as [|x [|y rest] IH]; intro k; simpl; auto.
  rewrite H. f_equal. f_equal. f_equal. apply IH.
Qed.

Lemma join_parts_shift : forall p f k parts,
  join_parts p f (S k) parts = join_parts p (fun j => f (S j)) k parts.
Proof.
  intros p f k parts. revert k.
  induction parts as [|x rest IH]; intro k; [reflexivity|].
  destruct rest as [|y rest]; [reflexivity|].
  change (x ++ p ++ f (S k) ++ join_parts p f (S (S k)) (y :: rest) =
          x ++ p ++ f (S k) ++ join_parts p (fun j => f (S j)) (S k) (y :: rest)).
  rewrite IH. reflexivity.
Qed.

Lemma py_index_mod : forall (adds : list text) c, adds <> [] ->
  (k <- py_mod c (Z.of_nat (List.length adds)) ;; py_index adds k) =
  Ok (nth (Z.to_nat (c mod Z.of_nat (List.length adds))) adds []).
Proof.
  intros adds c H. assert (Hpos : (0 < Z.of_nat (List.length adds))%Z).
  { destruct adds; [congruence|simpl; lia]. }
  unfold py_mod. destruct (Z.of_nat (List.length adds) =? 0)%Z eqn:E; [lia|]. simpl.
  unfold py_index. rewrite (nth_error_nth' adds []); [reflexivity|].
  pose proof (Z.mod_pos_bound c _ Hpos). lia.
Qed.

Lemma py_index_mod_bind : forall {B} (adds : list text) c (K : text -> res B), adds <> [] ->
  (k <- py_mod c (Z.of_nat (List.length adds)) ;; a <- py_index adds k ;; K a) =
  K (nth (Z.to_nat (c mod Z.of_nat (List.length adds))) adds []).
Proof.
  intros B adds c K H. assert (Hpos : (0 < Z.of_nat (List.length adds))%Z).
  { destruct adds; [congruence|simpl; lia]. }
  unfold py_mod. destruct (Z.of_nat (List.length adds) =? 0)%Z eqn:E; [lia|]. simpl.
  unfold py_index. rewrite (nth_error_nth' adds []); [reflexivity|].
  pose proof (Z.mod_pos_bound c _ Hpos). lia.
Qed.

Lemma every_nth_step : forall p adds N c x y rest,
  every_nth_loop p adds N c (x :: y :: rest) =
  (m <- py_mod c N ;;
   a <- (if (m =? 0)%Z
         then k <- py_mod c (Z.of_nat (List.length adds)) ;; py_index adds k
         else Ok []) ;;
   r <- every_nth_loop p adds N (c + 1) (y :: rest) ;;
   Ok (x ++ p ++ a ++ fst r, snd r)).
Proof. reflexivity. Qed.

Lemma always_step : forall p adds i x y rest,
  always_loop p adds i (x :: y :: rest) =
  (k <- py_mod (Z.of_nat i) (Z.of_nat (List.length adds)) ;;
   a <- py_index adds k ;;
   tl <- always_loop p adds (S i) (y :: rest) ;;
   Ok (x ++ p ++ a ++ tl)).
Proof. reflexivity. Qed.

Lemma join_step : forall p f k x y rest,
  join_parts p f k (x :: y :: rest) = x ++ p ++ f k ++ join_parts p f (S k) (y :: rest).
Proof. reflexivity. Qed.

Lemma every_nth_closed : forall p adds N parts c, N <> 0%Z -> adds <> [] -> parts <> [] ->
  every_nth_loop p adds N c parts =
  Ok (join_parts p (fun k => augmentation adds N (c + Z.of_nat k)) 0 parts,
      (c + Z.of_nat (List.length parts - 1))%Z).
Proof.
  intros p adds N parts. induction parts as [|x rest IH]; intros c HN Ha Hp; [congruence|].
  destruct rest as [|y rest]; [simpl; rewrite Z.add_0_r; reflexivity|].
  rewrite every_nth_step. unfold py_mod at 1. destruct (N =? 0)%Z eqn:EN; [lia|].
  cbn [bind].
  assert (Ha' : (if (c mod N =? 0)%Z
                 then k <- py_mod c (Z.of_nat (List.length adds)) ;; py_index adds k
                 else Ok []) = Ok (augmentation adds N (c + Z.of_nat 0))).
  { rewrite Z.add_0_r. unfold augmentation. destruct (c mod N =? 0)%Z; [|reflexivity].
    apply py_index_mod, Ha. }
  rewrite Ha'. cbn [bind]. rewrite IH by (auto; discriminate). cbn [bind fst snd].
  rewrite join_step. f_equal. f_equal.
  - f_equal. f_equal. f_equal.
    rewrite join_parts_shift. apply join_parts_ext. intro j. f_equal. lia.
  - simpl. lia.
Qed.

Lemma always_closed : forall p adds i parts, adds <> [] -> parts <> [] ->
  always_loop p adds i parts =
  Ok (join_parts p (fun k => nth (Z.to_nat (Z.of_nat (i + k) mod Z.of_nat (List.length adds)))
                                 adds []) 0 parts).
Proof.
  intros p adds i parts. revert i. induction parts as [|x rest IH]; intros i Ha Hp;
    [congruence|].
  destruct rest as [|y rest]; [reflexivity|].
  rewrite always_step, py_index_mod_bind by exact Ha.
  rewrite IH by (auto; discriminate). cbn [bind]. rewrite join_step.
  rewrite Nat.add_0_r. f_equal. f_equal. f_equal. f_equal.
  rewrite join_parts_shift. apply join_parts_ext. intro j. f_equal. f_equal. f_equal. lia.
Qed.

Lemma text_eqb_refl : forall a, text_eqb a a = true.
Proof. induction a as [|x a IH]; simpl; [reflexivity|]. rewrite Ascii.eqb_refl. exact IH. Qed.

Lemma text_eqb_eq : forall a b, text_eqb a b = true -> a = b.
Proof.
  induction a as [|x a IH]; intros [|y b] H; simpl in H; try discriminate; auto.
  apply andb_prop in H as [H1 H2]. apply Ascii.eqb_eq in H1. subst. f_equal. auto.
Qed.

Lemma lookup_set_counter : forall k v d, lookup_counter k (set_counter k v d) = Some v.
Proof.
  intros k v d. induction d as [|[k' v'] d IH]; simpl.
  - rewrite text_eqb_refl. reflexivity.
  - destruct (text_eqb k k') eqn:E; simpl.
    + rewrite E. reflexivity.
    + rewrite E. exact IH.
Qed.

(** Splitting on one character a text that ends with it: the last part is
    empty and follows the parts of the text without it. *)
Lemma split_snoc : forall c s f1 f2, List.length s <= f1 -> S (List.length s) <= f2 ->
  exists l x, split_fuel f1 [c] s = l ++ [x] /\ split_fuel f2 [c] (s ++ [c]) = l ++ [x; []].
Proof.
  intro c. induction s as [|a s IH]; intros f1 f2 H1 H2.
  - destruct f2 as [|f2]; [lia|]. exists [], [].
    split; [destruct f1; reflexivity|].
    simpl. rewrite Ascii.eqb_refl. simpl. destruct f2; reflexivity.
  - destruct f1 as [|f1]; [simpl in H1; lia|]. destruct f2 as [|f2]; [lia|].
    simpl in H1, H2.
    destruct (IH f1 f2 ltac:(lia) ltac:(lia)) as [l [x [E1 E2]]].
    cbn [app split_fuel prefixb skipn List.length]. rewrite andb_true_r.
    destruct (Ascii.eqb c a).
    + rewrite E1, E2. exists ([] :: l), x. split; reflexivity.
    + rewrite E1, E2. destruct l as [|y l].
      * exists [], (a :: x). split; reflexivity.
      * exists ((a :: y) :: l), x. split; reflexivity.
Qed.

Lemma join_snoc : forall p f l x y k,
  join_parts p f k (l ++ [x; y]) = join_parts p f k (l ++ [x]) ++ p ++ f (k + List.length l) ++ y.
Proof.
  intros p f l. induction l as [|a l IH]; intros x y k.
  - simpl. rewrite Nat.add_0_r. reflexivity.
  - cbn [app List.length].
    destruct l as [|b l].
    + cbn [app]. rewrite !join_step. simpl. rewrite Nat.add_1_r, <- !app_assoc. reflexivity.
    + replace ((b :: l) ++ [x; y]) with (b :: (l ++ [x; y])) by reflexivity.
      replace ((b :: l) ++ [x]) with (b :: (l ++ [x])) by reflexivity.
      rewrite !join_step.
      replace (b :: l ++ [x; y]) with ((b :: l) ++ [x; y]) by reflexivity.
      replace (b :: l ++ [x]) with ((b :: l) ++ [x]) by reflexivity.
      rewrite IH. rewrite <- !app_assoc.
      assert (E : S k + List.length (b :: l) = k + S (List.length (b :: l))) by lia.
      rewrite E. reflexivity.
Qed.

(** ** Claims about [SentenceAugmenter] *)

(** C6: for a rule with frequency [N > 1], [add_rule] sets the counter of its
    punctuation to 0; a [transform] call starts from the counter the
    instance holds (it is not reset), appends at the [k]-th occurrence of
    this call (counter value [c + k]) the addition [additions[(c + k) mod
    len]] exactly when [(c + k) mod N = 0], and stores [c] plus the number of
    occurrences.  On ["One. Two. Three. Four."] with [(".", ["A", "B"], 2)],
    the 1st and 3rd occurrences (counters 0 and 2) are augmented, and a second
    call continues from counter 4. *)
Theorem every_nth_counter_persists :
  (forall st p adds N, (1 < N)%Z ->
     lookup_counter p (counters (aug_add_rule st p adds N)) = Some 0%Z) /\
  (forall p adds N cs t, p <> [] -> adds <> [] -> (1 < N)%Z ->
     let r := {| punct := p; additions := adds; frequency := N |} in
     let c := get_or (lookup_counter p cs) 0%Z in
     aug_transform {| aug_rules := [r]; counters := cs |} t =
       Ok (join_parts p (fun k => augmentation adds N (c + Z.of_nat k)) 0
             (split_fuel (List.length t) p t),
           {| aug_rules := [r];
              counters := set_counter p (c + Z.of_nat (count_occ p t)) cs |}) /\
     lookup_counter p (set_counter p (c + Z.of_nat (count_occ p t)) cs) =
       Some (c + Z.of_nat (count_occ p t))%Z) /\
  (let st0 := aug_add_rule aug_new (txt ".") [txt "A"; txt "B"] 2 in
   exists st1 st2,
     aug_transform st0 (txt "One. Two. Three. Four.") = Ok (txt "One.A Two. Three.A Four.", st1) /\
     lookup_counter (txt ".") (counters st1) = Some 4%Z /\
     aug_transform st1 (txt "x. y. z.") = Ok (txt "x.A y. z.A", st2) /\
     lookup_counter (txt ".") (counters st2) = Some 7%Z).
Proof.
  split.
  { intros st p adds N HN. unfold aug_add_rule. simpl.
    destruct (1 <? N)%Z eqn:E; [apply lookup_set_counter | lia]. }
  split.
  { intros p adds N cs t Hp Ha HN r c. split; [|apply lookup_set_counter].
    unfold aug_transform. simpl. unfold apply_aug_rule. simpl.
    rewrite py_split_nonempty by exact Hp. cbn [bind].
    destruct (N =? 1)%Z eqn:E1; [lia|].
    rewrite every_nth_closed by (auto using split_fuel_nonnil; lia). cbn [bind fst snd].
    unfold count_occ. rewrite split_count. simpl.
    rewrite Nat.sub_0_r. reflexivity. }
  eexists. eexists. split; [vm_compute; reflexivity|].
  split; [vm_compute; reflexivity|]. split; vm_compute; reflexivity.
Qed.

(** C7 (as stated, refuted): with [(".", ["!"], 1)] the text ["Hi."] ends in
    the trigger, and that final occurrence is augmented: ["Hi.!"]. *)
Lemma final_punctuation_augmented :
  exists st, aug_transform (aug_add_rule aug_new (txt ".") [txt "!"] 1) (txt "Hi.") =
             Ok (txt "Hi.!", st).
Proof. eexists. vm_compute. reflexivity. Qed.

(** C7 (amended): every occurrence of the trigger that [text.split(punct)]
    finds is eligible for augmentation, including one at the very end of the
    input (the split then ends with an empty part), for every rule: when
    the split of [t] is [parts ++ [x; ""]], the output ends with the trigger
    followed by what the rule appends at its occurrence number
    [len(parts)], by the same choice as at every other occurrence:
    [additions[k % len(additions)]] for frequency 1, and for frequency
    [N <> 1] the addition of counter value [c + k] ([c] the stored counter)
    when [(c + k) % N == 0], else nothing.  A text ending in a one-character
    trigger always splits that way. *)
Theorem final_occurrence_augmented : forall (p : text) adds N cs t parts x,
  p <> [] -> adds <> [] -> N <> 0%Z ->
  split_fuel (List.length t) p t = parts ++ [x; []] ->
  let st := {| aug_rules := [{| punct := p; additions := adds; frequency := N |}];
               counters := cs |} in
  let c := match lookup_counter p cs with Some c => c | None => 0%Z end in
  let a := if (N =? 1)%Z
           then nth (Z.to_nat (Z.of_nat (List.length parts) mod Z.of_nat (List.length adds))) adds []
           else augmentation adds N (c + Z.of_nat (List.length parts)) in
  (exists w st', aug_transform st t = Ok (w ++ p ++ a, st')) /\
  (forall (d : ascii) (s : text), exists l y,
     split_fuel (List.length (s ++ [d])) [d] (s ++ [d]) = l ++ [y; []]).
Proof.
  intros p adds N cs t parts x Hp Ha HN Hs st c a. split.
  2: { intros d s0. destruct (split_snoc d s0 (List.length s0) (List.length (s0 ++ [d])))
         as [l [y [_ E2]]]; [lia|rewrite length_app; simpl; lia|]. eauto. }
  unfold aug_transform, st. simpl aug_rules. cbn [aug_rules_loop counters].
  unfold apply_aug_rule. cbn [punct additions frequency]. rewrite py_split_nonempty by exact Hp.
  rewrite Hs. cbn [bind]. unfold a. destruct (N =? 1)%Z.
  - rewrite always_closed by (auto; destruct parts; discriminate).
    cbn [bind fst snd]. rewrite join_snoc, app_nil_r. eexists. eexists. reflexivity.
  - fold c. rewrite every_nth_closed by (auto; destruct parts; discriminate).
    cbn [bind fst snd]. rewrite join_snoc, app_nil_r. eexists. eexists. reflexivity.
Qed.

Lemma final_occurrence_augmented_witness :
  (exists w st', aug_transform {| aug_rules := [{| punct := txt "."; additions := [txt " Groovy!"];
                                                 frequency := 3 |}];
                                  counters := [(txt ".", 0%Z)] |} (txt "a.b.c.d.") =
                 Ok (w ++ txt "." ++ txt " Groovy!", st')) /\
  (exists w st', aug_transform {| aug_rules := [{| punct := txt "."; additions := [txt "!"];
                                                 frequency := 1 |}];
                                  counters := [] |} (txt "Hi.") =
                 Ok (w ++ txt "." ++ txt "!", st')).
Proof.
  split.
  - exact (proj1 (final_occurrence_augmented (txt ".") [txt " Groovy!"] 3 [(txt ".", 0%Z)]
            (txt "a.b.c.d.") [txt "a"; txt "b"; txt "c"] (txt "d")
            ltac:(discriminate) ltac:(discriminate) ltac:(discriminate) eq_refl)).
  - exact (proj1 (final_occurrence_augmented (txt ".") [txt "!"] 1 [] (txt "Hi.") [] (txt "Hi")
            ltac:(discriminate) ltac:(discriminate) ltac:(discriminate) eq_refl)).
Defined.

(** C10: a rule with frequency 1 and no additions raises [ZeroDivisionError]
    ([i % len(additions)] with [len(additions) = 0]) on every input that
    contains its (non-empty) punctuation, and returns other inputs
    unchanged. *)
Theorem empty_additions_divide_by_zero : forall (p : text) cs t, p <> [] ->
  let st := {| aug_rules := [{| punct := p; additions := []; frequency := 1 |}];
               counters := cs |} in
  (contains p t -> aug_transform st t = Raise ZeroDivisionError) /\
  (~ contains p t -> aug_transform st t = Ok (t, st)).
Proof.
  intros p cs t Hp st. unfold aug_transform, st. simpl aug_rules. cbn [aug_rules_loop].
  unfold apply_aug_rule. cbn [punct additions frequency]. rewrite py_split_nonempty by exact Hp.
  cbn [bind]. simpl (1 =? 1)%Z. cbv iota. split.
  - intro Hc. destruct (split_occ p Hp (List.length t) t (le_n _) Hc) as [x [y [rest E]]].
    rewrite E. reflexivity.
  - intro Hn. rewrite (split_no_occ p Hp (List.length t) t (le_n _) Hn). reflexivity.
Qed.

Lemma empty_additions_divide_by_zero_witness :
  aug_transform {| aug_rules := [{| punct := txt "."; additions := []; frequency := 1 |}];
                   counters := [] |} (txt "One. Two") = Raise ZeroDivisionError /\
  aug_transform {| aug_rules := [{| punct := txt "."; additions := []; frequency := 1 |}];
                   counters := [] |} (txt "One") =
    Ok (txt "One", {| aug_rules := [{| punct := txt "."; additions := []; frequency := 1 |}];
                     counters := [] |}).
Proof.
  destruct (empty_additions_divide_by_zero (txt ".") [] (txt "One. Two") ltac:(discriminate)) as [H1 _].
  destruct (empty_additions_divide_by_zero (txt ".") [] (txt "One") ltac:(discriminate)) as [_ H2].
  split.
  - apply H1. exists (txt "One"), (txt " Two"). reflexivity.
  - apply H2. intros [u [v H]].
    assert (Hin : In "."%char (u ++ txt "." ++ v)) by (apply in_or_app; right; left; reflexivity).
    rewrite <- H in Hin. simpl in Hin. intuition discriminate.
Defined.

Section GlitchProps.
Variable Ch : Type.
Variable isalnum : Ch -> bool.
Variable GLITCH_CHARS : list Ch.
Variable St : Type.
Variable seed_state : Z -> St.
Variable randbelow : nat -> St -> nat * St.

Local Abbreviation loop := (glitch_loop Ch isalnum GLITCH_CHARS St randbelow).

Lemma glitch_loop_app : forall pct s t1 t2,
  loop pct s (t1 ++ t2) =
  (fst (loop pct s t1) ++ fst (loop pct (snd (loop pct s t1)) t2),
   snd (loop pct (snd (loop pct s t1)) t2)).
Proof.
  intros pct s t1. revert s. induction t1 as [|c t1 IH]; intros s t2.
  - simpl. destruct (loop pct s t2); reflexivity.
  - simpl. destruct (isalnum c).
    + destruct (randint St randbelow 1 100 s) as [d s1].
      destruct (Z.of_nat d <=? pct)%Z.
      * destruct (choice Ch St randbelow GLITCH_CHARS c s1) as [g s2].
        rewrite IH. destruct (loop pct s2 t1). reflexivity.
      * rewrite IH. destruct (loop pct s1 t1). reflexivity.
    + rewrite IH. destruct (loop pct s t1). reflexivity.
Qed.

Lemma glitch_loop_non_alnum : forall pct s u,
  forallb (fun c => negb (isalnum c)) u = true -> loop pct s u = (u, s).
Proof.
  intros pct s u. induction u as [|c u IH]; intro H; [reflexivity|].
  simpl in H. apply andb_prop in H as [Hc Hu].
  simpl. destruct (isalnum c); [discriminate|]. rewrite IH by exact Hu. reflexivity.
Qed.

Lemma glitch_loop_length : forall pct s t, List.length (fst (loop pct s t)) = List.length t.
Proof.
  intros pct s t. revert s. induction t as [|c t IH]; intro s; [reflexivity|].
  simpl. destruct (isalnum c).
  - destruct (randint St randbelow 1 100 s) as [d s1].
    destruct (Z.of_nat d <=? pct)%Z.
    + destruct (choice Ch St randbelow GLITCH_CHARS c s1) as [g s2].
      specialize (IH s2). destruct (loop pct s2 t). simpl in *. lia.
    + specialize (IH s1). destruct (loop pct s1 t). simpl in *. lia.
  - specialize (IH s). destruct (loop pct s t). simpl in *. lia.
Qed.

Lemma glitch_loop_keeps : forall pct t s i c,
  nth_error t i = Some c -> isalnum c = false -> nth_error (fst (loop pct s t)) i = Some c.
Proof.
  intros pct t. induction t as [|a t IH]; intros s i c Hi Hc; [destruct i; discriminate|].
  destruct i as [|i].
  - simpl in Hi. injection Hi as ->. simpl. rewrite Hc. destruct (loop pct s t). reflexivity.
  - simpl in Hi. simpl. destruct (isalnum a).
    + destruct (randint St randbelow 1 100 s) as [d s1].
      destruct (Z.of_nat d <=? pct)%Z.
      * destruct (choice Ch St randbelow GLITCH_CHARS a s1) as [g s2].
        pose proof (IH s2 i c Hi Hc). destruct (loop pct s2 t). exact H.
      * pose proof (IH s1 i c Hi Hc). destruct (loop pct s1 t). exact H.
    + pose proof (IH s i c Hi Hc). destruct (loop pct s t). exact H.
Qed.

(** C8: the glitch stage is deterministic for fresh stages and leaves
    non-alphanumerics alone.  Two stages built with the same percentage and
    seed give the same output on the same text (the output is a function of
    the text, the percentage and the seed); the output is as long as the
    input; a non-alphanumeric character keeps its position; and a run [u] of
    non-alphanumerics inside a text is copied verbatim and consumes no draw:
    the text after it is processed from the very generator state reached
    before it.  Stated for any character type, [isalnum] test, glyph list and
    generator state machine. *)
Theorem glitch_deterministic_preserves_non_alnum : forall pct seed t,
  let g1 := glitch_new St seed_state pct seed in
  let g2 := glitch_new St seed_state pct seed in
  fst (glitch_transform Ch isalnum GLITCH_CHARS St randbelow g1 t) =
    fst (glitch_transform Ch isalnum GLITCH_CHARS St randbelow g2 t) /\
  fst (glitch_transform Ch isalnum GLITCH_CHARS St randbelow g1 t) =
    fst (loop pct (seed_state seed) t) /\
  List.length (fst (loop pct (seed_state seed) t)) = List.length t /\
  (forall i c, nth_error t i = Some c -> isalnum c = false ->
     nth_error (fst (loop pct (seed_state seed) t)) i = Some c) /\
  (forall s t1 u t2, forallb (fun c => negb (isalnum c)) u = true ->
     let s1 := snd (loop pct s t1) in
     loop pct s (t1 ++ u ++ t2) =
       (fst (loop pct s t1) ++ u ++ fst (loop pct s1 t2), snd (loop pct s1 t2))).
Proof.
  intros pct seed t g1 g2. split; [reflexivity|]. split.
  { unfold g1, glitch_transform, glitch_new. simpl.
    destruct (loop pct (seed_state seed) t). reflexivity. }
  split; [apply glitch_loop_length|]. split.
  { intros i c Hi Hc. apply glitch_loop_keeps; assumption. }
  intros s t1 u t2 Hu s1.
  rewrite glitch_loop_app, glitch_loop_app, (glitch_loop_non_alnum pct _ u Hu). reflexivity.
Qed.

End GlitchProps.

Lemma glitch_deterministic_preserves_non_alnum_witness :
  fst (glitch_loop ascii is_alnum lcg_glitch_chars Z lcg_randbelow 50 (lcg_seed 42) (txt "a, b")) =
    fst (glitch_loop ascii is_alnum lcg_glitch_chars Z lcg_randbelow 50 (lcg_seed 42) (txt "a, b")) /\
  nth_error (fst (glitch_loop ascii is_alnum lcg_glitch_chars Z lcg_randbelow 50 (lcg_seed 42)
                    (txt "a, b"))) 1 = Some ","%char /\
  glitch_loop ascii is_alnum lcg_glitch_chars Z lcg_randbelow 50 7%Z (txt "ab" ++ txt ", " ++ txt "cd") =
    (fst (glitch_loop ascii is_alnum lcg_glitch_chars Z lcg_randbelow 50 7%Z (txt "ab")) ++ txt ", " ++
       fst (glitch_loop ascii is_alnum lcg_glitch_chars Z lcg_randbelow 50
              (snd (glitch_loop ascii is_alnum lcg_glitch_chars Z lcg_randbelow 50 7%Z (txt "ab")))
              (txt "cd")),
     snd (glitch_loop ascii is_alnum lcg_glitch_chars Z lcg_randbelow 50
            (snd (glitch_loop ascii is_alnum lcg_glitch_chars Z lcg_randbelow 50 7%Z (txt "ab")))
            (txt "cd"))).
Proof.
  destruct (glitch_deterministic_preserves_non_alnum ascii is_alnum lcg_glitch_chars Z lcg_seed
              lcg_randbelow 50 42 (txt "a, b")) as [_ [_ [_ [H4 H5]]]].
  split; [reflexivity|]. split.
  - apply H4; reflexivity.
  - apply H5. reflexivity.
Defined.

(** C9 (as stated, refuted): a configuration whose only key is an empty
    [substitutions] table yields a pipeline with one stage, a
    [Substitution] stage with no rules; it is not omitted. *)
Lemma empty_table_stage_kept :
  transformers (from_dict {| cfg_substitutions := Some []; cfg_characters := None;
                             cfg_suffixes := None; cfg_prefixes := None;
                             cfg_sentence_augmentation := None; cfg_glitch := None;
                             cfg_word_boundary := None; cfg_preserve_case := None;
                             cfg_prefix_text := None; cfg_suffix_text := None |}) =
  [StSubstitution []].
Proof. reflexivity. Qed.

(** C9 (amended): [from_dict] is total, and it adds one stage per
    recognised key that is present, in the fixed order substitutions,
    characters, suffixes, prefixes, sentence_augmentation, glitch, whether or
    not the table is empty; an absent key adds no stage.  Each stage built
    from a present but empty rule table (substitutions, characters,
    suffixes, prefixes, sentence_augmentation) leaves every text unchanged
    (the augmenter also keeps its state), whatever the other keys hold.  The
    [glitch] key holds no rule table: any value adds a glitch stage, and
    [glitch: {}] adds the stage with percentage 100 and seed 42. *)
Theorem from_dict_stage_per_present_key : forall c,
  map kind_of (transformers (from_dict c)) = present_kinds c /\
  (forall s, In s (transformers (from_dict c)) -> built_from_empty_table c (kind_of s) ->
     stage_is_identity s) /\
  (cfg_glitch c = Some (GlitchDict None None) -> In (StGlitch 100 42) (transformers (from_dict c))).
Proof.
  intros [sb ch sf pf au gl wb pc pt st]. split; [|split].
  - unfold from_dict, present_kinds. simpl.
    destruct sb, ch, sf, pf, au, gl; reflexivity.
  - intros s Hs He. unfold from_dict in Hs. simpl in Hs.
    repeat rewrite in_app_iff in Hs.
    destruct Hs as [Hs|[Hs|[Hs|[Hs|[Hs|Hs]]]]].
    + destruct sb as [m|]; [|contradiction]. destruct Hs as [<-|[]].
      simpl in He. injection He as ->. intro t. reflexivity.
    + destruct ch as [m|]; [|contradiction]. destruct Hs as [<-|[]].
      simpl in He. injection He as ->. intro t. reflexivity.
    + destruct sf as [m|]; [|contradiction]. destruct Hs as [<-|[]].
      simpl in He. injection He as ->. intro t. reflexivity.
    + destruct pf as [m|]; [|contradiction]. destruct Hs as [<-|[]].
      simpl in He. injection He as ->. intro t. reflexivity.
    + destruct au as [l|]; [|contradiction]. destruct Hs as [<-|[]].
      simpl in He. injection He as ->. intro t. reflexivity.
    + destruct gl; [|contradiction]. destruct Hs as [<-|[]]. simpl in He. contradiction.
  - intro Hg. cbn [cfg_glitch] in Hg. subst gl. unfold from_dict. simpl.
    repeat rewrite in_app_iff. right; right; right; right; right. left. reflexivity.
Qed.

Lemma from_dict_stage_per_present_key_witness :
  regex_transform (Substitution [] true true) (txt "Hi there") = txt "Hi there" /\
  In (StGlitch 100 42)
     (transformers (from_dict {| cfg_substitutions := Some []; cfg_characters := None;
                                 cfg_suffixes := None; cfg_prefixes := None;
                                 cfg_sentence_augmentation := None;
                                 cfg_glitch := Some (GlitchDict None None);
                                 cfg_word_boundary := None; cfg_preserve_case := None;
                                 cfg_prefix_text := None; cfg_suffix_text := None |})).
Proof.
  destruct (from_dict_stage_per_present_key
              {| cfg_substitutions := Some []; cfg_characters := None;
                 cfg_suffixes := None; cfg_prefixes := None;
                 cfg_sentence_augmentation := None; cfg_glitch := Some (GlitchDict None None);
                 cfg_word_boundary := None; cfg_preserve_case := None;
                 cfg_prefix_text := None; cfg_suffix_text := None |}) as [_ [H Hg]].
  split; [|apply Hg; reflexivity].
  exact (H (StSubstitution (Substitution [] true true)) (or_introl eq_refl) eq_refl (txt "Hi there")).
Defined.

Lemma substitution_longest_first_witness :
  sort_by_len_desc [(txt "going", txt "goin"); (txt "going to", txt "gonna")] =
    [(txt "going to", txt "gonna")] ++ (txt "going", txt "goin") :: [] /\
  ~ In (txt "going to", txt "gonna") (@nil (text * text)).
Proof.
  destruct (substitution_longest_first [(txt "going", txt "goin"); (txt "going to", txt "gonna")]
              true true) as [_ [_ [_ [_ [H _]]]]].
  assert (E : sort_by_len_desc [(txt "going", txt "goin"); (txt "going to", txt "gonna")] =
              [(txt "going to", txt "gonna")] ++ (txt "going", txt "goin") :: [])
    by (vm_compute; reflexivity).
  split; [exact E|].
  apply (H [(txt "going to", txt "gonna")] [] (txt "going to", txt "gonna") (txt "going", txt "goin") E).
  simpl. lia.
Defined.

Lemma same_cap_shape_witness :
  same_cap (txt "HELLO") (txt "hey") = py_upper (txt "hey") /\
  same_cap (txt "Hello") (txt "hey") = to_upper "h"%char :: txt "ey" /\
  same_cap (txt "hello") (txt "hey") = to_lower "h"%char :: txt "ey".
Proof.
  destruct (same_cap_shape (txt "HELLO") (txt "hey")) as [_ [H2 _]].
  destruct (same_cap_shape (txt "Hello") (txt "hey")) as [_ [_ [H3 _]]].
  destruct (same_cap_shape (txt "hello") (txt "hey")) as [_ [_ [_ [H4 _]]]].
  split; [|split].
  - apply H2; [discriminate|discriminate| |].
    + apply Exists_cons_hd. reflexivity.
    + repeat constructor.
  - apply (H3 "H"%char (txt "ello") "h"%char (txt "ey") eq_refl eq_refl); [|reflexivity].
    intros [_ HF]. apply Forall_inv_tail, Forall_inv in HF. discriminate.
  - apply (H4 "h"%char (txt "ello") "h"%char (txt "ey") eq_refl eq_refl); [|reflexivity].
    intros [_ HF]. apply Forall_inv in HF. discriminate.
Defined.

Lemma every_nth_counter_persists_witness :
  lookup_counter (txt ".") (counters (aug_add_rule aug_new (txt ".") [txt "A"] 3)) = Some 0%Z /\
  aug_transform {| aug_rules := [{| punct := txt "."; additions := [txt "A"; txt "B"]; frequency := 2 |}];
                   counters := [(txt ".", 1%Z)] |} (txt "a. b. c") =
    Ok (join_parts (txt ".") (fun k => augmentation [txt "A"; txt "B"] 2 (1 + Z.of_nat k)) 0
          (split_fuel (List.length (txt "a. b. c")) (txt ".") (txt "a. b. c")),
        {| aug_rules := [{| punct := txt "."; additions := [txt "A"; txt "B"]; frequency := 2 |}];
           counters := set_counter (txt ".") (1 + Z.of_nat (count_occ (txt ".") (txt "a. b. c")))
                         [(txt ".", 1%Z)] |}).
Proof.
  destruct every_nth_counter_persists as [H1 [H2 _]]. split.
  - apply H1. lia.
  - apply (H2 (txt ".") [txt "A"; txt "B"] 2%Z [(txt ".", 1%Z)] (txt "a. b. c"));
      [discriminate|discriminate|lia].
Defined.

(** * Further properties of the library *)

(** ** [character_translation] *)

Lemma tr_get_set : forall c k v d,
  tr_get c (tr_set k v d) = if Ascii.eqb c k then Some v else tr_get c d.
Proof.
  intros c k v d. induction d as [|[k' v'] d IH]; simpl.
  - reflexivity.
  - destruct (Ascii.eqb k k') eqn:E1.
    + apply Ascii.eqb_eq in E1. subst k'. simpl. destruct (Ascii.eqb c k); reflexivity.
    + simpl. rewrite IH. destruct (Ascii.eqb c k') eqn:E2, (Ascii.eqb c k) eqn:E3; auto.
      apply Ascii.eqb_eq in E2, E3. subst. rewrite Ascii.eqb_refl in E1. discriminate.
Qed.

Lemma tr_fold_notin : forall l d c, ~ In c (map fst l) -> tr_get c (tr_fold l d) = tr_get c d.
Proof.
  induction l as [|[k v] l IH]; intros d c H; [reflexivity|].
  unfold tr_fold. simpl. fold (tr_fold l (tr_set k v d)).
  rewrite IH by (intro; apply H; right; auto). rewrite tr_get_set.
  destruct (Ascii.eqb c k) eqn:E; [|reflexivity].
  apply Ascii.eqb_eq in E. subst. exfalso. apply H. left. reflexivity.
Qed.

Lemma tr_fold_last : forall l1 c v l2 d, ~ In c (map fst l2) ->
  tr_get c (tr_fold (l1 ++ (c, v) :: l2) d) = Some v.
Proof.
  intros l1 c v l2 d H. unfold tr_fold. rewrite fold_left_app. simpl.
  fold (tr_fold l2 (tr_set c v (tr_fold l1 d))).
  rewrite tr_fold_notin by exact H. rewrite tr_get_set, Ascii.eqb_refl. reflexivity.
Qed.

Lemma tr_fold_nodup : forall l d c v, NoDup (map fst l) -> In (c, v) l ->
  tr_get c (tr_fold l d) = Some v.
Proof.
  intros l d c v Hn Hin. apply in_split in Hin as [l1 [l2 ->]].
  apply tr_fold_last. rewrite map_app in Hn. simpl in Hn.
  apply NoDup_remove_2 in Hn. intro H. apply Hn. apply in_or_app. right. exact H.
Qed.

Lemma map_fst_combine : forall (x y : text), List.length x = List.length y ->
  map fst (combine x y) = x.
Proof.
  induction x as [|a x IH]; intros [|b y] H; simpl in *; try discriminate; auto.
  rewrite IH by lia. reflexivity.
Qed.

Lemma maketrans_ok : forall x y, List.length x = List.length y ->
  maketrans x y = Ok (tr_fold (combine x y) []).
Proof. intros x y H. unfold maketrans. rewrite H, Nat.eqb_refl. reflexivity. Qed.

Lemma maketrans_at : forall x y j c c', List.length x = List.length y -> NoDup x ->
  nth_error x j = Some c -> nth_error y j = Some c' ->
  tr_get c (tr_fold (combine x y) []) = Some c'.
Proof.
  intros x y j c c' Hl Hn Hx Hy. apply tr_fold_nodup.
  - rewrite map_fst_combine by exact Hl. exact Hn.
  - revert y j Hl Hx Hy. induction x as [|a x IH]; intros [|b y] j Hl Hx Hy;
      destruct j; simpl in *; try discriminate.
    + left. congruence.
    + right. apply NoDup_cons_iff in Hn as [_ Hn]. apply (IH Hn y j); auto.
Qed.

Lemma combine_app_eq : forall (x1 y1 : text) x2 y2, List.length x1 = List.length y1 ->
  combine (x1 ++ x2) (y1 ++ y2) = combine x1 y1 ++ combine x2 y2.
Proof.
  induction x1 as [|a x1 IH]; intros [|b y1] x2 y2 H; simpl in *; try discriminate; auto.
  rewrite IH by lia. reflexivity.
Qed.

Lemma translate_notin : forall x y c, ~ In c x ->
  tr_get c (tr_fold (combine x y) []) = None.
Proof.
  intros x y c H. rewrite tr_fold_notin; [reflexivity|].
  intro Hc. apply in_map_iff in Hc as [[a b] [Ha Hin]]. simpl in Ha. subst a.
  apply in_combine_l in Hin. contradiction.
Qed.

Lemma nth_error_translate : forall t d i c, nth_error t i = Some c ->
  nth_error (translate t d) i = Some (match tr_get c d with Some c' => c' | None => c end).
Proof. intros t d i c H. unfold translate. rewrite nth_error_map, H. reflexivity. Qed.

(** [character_translation(text, from_chars, to_chars)] raises [ValueError]
    when the two character lists differ in length.  Otherwise it returns a
    text of the same length in which every character not in [from_chars] is
    kept, and a character of [from_chars] becomes the [to_chars] character
    at the position of its LAST occurrence in [from_chars]. *)
Theorem character_translation_spec : forall t x y,
  (List.length x <> List.length y -> character_translation t x y = Raise ValueError) /\
  (List.length x = List.length y -> exists o, character_translation t x y = Ok o /\
     List.length o = List.length t /\
     (forall i c, nth_error t i = Some c -> ~ In c x -> nth_error o i = Some c) /\
     (forall x1 x2 y1 y2 c c' i, x = x1 ++ c :: x2 -> y = y1 ++ c' :: y2 ->
        List.length x1 = List.length y1 -> ~ In c x2 ->
        nth_error t i = Some c -> nth_error o i = Some c')).
Proof.
  intros t x y. split.
  { intro H. unfold character_translation, maketrans.
    destruct (Nat.eqb_spec (List.length x) (List.length y)); [contradiction|reflexivity]. }
  intro Hl. exists (translate t (tr_fold (combine x y) [])).
  split; [unfold character_translation; rewrite maketrans_ok by exact Hl; reflexivity|].
  split; [unfold translate; apply length_map|]. split.
  - intros i c Hi Hc. rewrite (nth_error_translate _ _ _ _ Hi), translate_notin by exact Hc.
    reflexivity.
  - intros x1 x2 y1 y2 c c' i -> -> H1 Hc Hi. rewrite (nth_error_translate _ _ _ _ Hi).
    rewrite combine_app_eq by exact H1. simpl.
    rewrite tr_fold_last; [reflexivity|].
    intro Hin. apply in_map_iff in Hin as [[a b] [Ha Hin]]. simpl in Ha. subst a.
    apply in_combine_l in Hin. contradiction.
Qed.

Lemma character_translation_spec_witness :
  character_translation (txt "hello") (txt "helo") (txt "w3l") = Raise ValueError /\
  exists o, character_translation (txt "hello") (txt "helo") (txt "w3l0") = Ok o /\
    List.length o = 5.
Proof.
  split.
  - apply (proj1 (character_translation_spec (txt "hello") (txt "helo") (txt "w3l"))).
    discriminate.
  - destruct (proj2 (character_translation_spec (txt "hello") (txt "helo") (txt "w3l0")) eq_refl)
      as [o [H1 [H2 _]]].
    exists o. split; [exact H1|exact H2].
Defined.

(** Translating with [(from_chars, to_chars)] and then with
    [(to_chars, from_chars)] gives the text back, when both lists have the
    same length and no repeated character, and every character of the text
    is in [from_chars] or not in [to_chars]. *)
Theorem character_translation_round_trip : forall t x y o,
  List.length x = List.length y -> NoDup x -> NoDup y ->
  (forall c, In c t -> In c x \/ ~ In c y) ->
  character_translation t x y = Ok o -> character_translation o y x = Ok t.
Proof.
  intros t x y o Hl Hx Hy Ht H. unfold character_translation in *.
  rewrite maketrans_ok in H by exact Hl. injection H as <-.
  rewrite maketrans_ok by (symmetry; exact Hl). cbn [bind]. f_equal.
  unfold translate. rewrite map_map. rewrite <- (map_id t) at 2. apply map_ext_in.
  intros c Hc. destruct (in_dec ascii_dec c x) as [Hin|Hnx].
  - apply In_nth_error in Hin as [j Hj].
    assert (Hjy : exists c', nth_error y j = Some c').
    { destruct (nth_error y j) eqn:E; [eauto|].
      apply nth_error_None in E. assert (nth_error x j <> None) as Hs by congruence.
      apply nth_error_Some in Hs. lia. }
    destruct Hjy as [c' Hc'].
    rewrite (maketrans_at x y j c c' Hl Hx Hj Hc').
    rewrite (maketrans_at y x j c' c (eq_sym Hl) Hy Hc' Hj). reflexivity.
  - destruct (Ht c Hc) as [|Hny]; [contradiction|].
    rewrite (translate_notin x y c Hnx). rewrite (translate_notin y x c Hny). reflexivity.
Qed.

Lemma character_translation_round_trip_witness :
  character_translation (txt "abc") (txt "ab") (txt "xy") = Ok (txt "xyc") /\
  character_translation (txt "xyc") (txt "xy") (txt "ab") = Ok (txt "abc").
Proof.
  assert (H : character_translation (txt "abc") (txt "ab") (txt "xy") = Ok (txt "xyc"))
    by (vm_compute; reflexivity).
  split; [exact H|].
  apply (character_translation_round_trip (txt "abc") (txt "ab") (txt "xy") (txt "xyc")).
  - reflexivity.
  - repeat constructor; simpl; intuition discriminate.
  - repeat constructor; simpl; intuition discriminate.
  - intros c [<-|[<-|[<-|[]]]].
    + left. left. reflexivity.
    + left. right. left. reflexivity.
    + right. simpl. intuition discriminate.
  - exact H.
Defined.

(** ** [same_cap] *)

Lemma case_maps : forall c,
  to_lower (to_upper c) = to_lower c /\ to_lower (to_lower c) = to_lower c /\
  to_upper (to_upper c) = to_upper c.
Proof.
  intro c.
  assert (H : forallb (fun c => Ascii.eqb (to_lower (to_upper c)) (to_lower c) &&
                               Ascii.eqb (to_lower (to_lower c)) (to_lower c) &&
                               Ascii.eqb (to_upper (to_upper c)) (to_upper c)) all_ascii = true)
    by (vm_compute; reflexivity).
  pose proof (forallb_all_ascii _ H c) as Hc. cbv beta in Hc.
  apply andb_prop in Hc as [Hc H3]. apply andb_prop in Hc as [H1 H2].
  apply Ascii.eqb_eq in H1, H2, H3. auto.
Qed.

(** On ASCII text (the text model of this file; Python's Unicode case
    mappings can change lengths, e.g. [str.upper] of a sharp s), the case
    adapter only changes letter case: [same_cap(original,
    replacement)] has the replacement's length and lower-cases to the
    lower-cased replacement; and adapting its result again to the same
    original changes nothing. *)
Theorem same_cap_only_case : forall o r,
  List.length (same_cap o r) = List.length r /\
  map to_lower (same_cap o r) = map to_lower r /\
  same_cap o (same_cap o r) = same_cap o r.
Proof.
  intros o r.
  assert (Hl : forall l, map to_lower (map to_upper l) = map to_lower l /\
                         map to_upper (map to_upper l) = map to_upper l).
  { intro l. rewrite !map_map. split; apply map_ext; intro; apply case_maps. }
  destruct o as [|o0 o'], r as [|r0 r']; try (split; [reflexivity|split; reflexivity]).
  unfold same_cap at 1 2 3. fold (same_cap (o0 :: o')).
  destruct (py_isupper (o0 :: o')) eqn:Hu.
  - unfold py_upper. rewrite length_map. split; [reflexivity|]. split; [apply Hl|].
    change (map to_upper (r0 :: r')) with (to_upper r0 :: map to_upper r').
    unfold same_cap. rewrite Hu. unfold py_upper. rewrite <- (proj2 (Hl (r0 :: r'))) at 2. reflexivity.
  - destruct (is_upper o0) eqn:Ho; (split; [reflexivity|]); (split; [simpl; f_equal; apply case_maps|]);
      unfold same_cap; rewrite Hu, Ho; f_equal; apply case_maps.
Qed.

(** ** An empty key *)

Section EmptyPattern.
Variable p : pattern.
Hypothesis Hp : atoms p = [].
Variable R : replacer.
Variable r : text.
Hypothesis HR : forall t b caps, R t b b caps = r.

Lemma search_empty_false : forall t last, search p t false last = Some (last, last, []).
Proof. intros t last. unfold search. simpl. rewrite Hp. reflexivity. Qed.

Lemma search_empty_true : forall t last, last <= List.length t ->
  search p t true last =
  if last =? List.length t then None else Some (S last, S last, []).
Proof.
  intros t last Hl. unfold search. simpl. rewrite Hp. simpl. rewrite Nat.eqb_refl. simpl.
  destruct (Nat.eqb_spec last (List.length t)).
  - subst. rewrite Nat.sub_diag. reflexivity.
  - destruct (List.length t - last) eqn:E; [lia|]. simpl. rewrite Hp. reflexivity.
Qed.

Lemma sub_loop_empty_true : forall t n last fuel, List.length t - last = n ->
  last <= List.length t -> 2 * n + 2 <= fuel ->
  sub_loop p R t last true fuel = List.concat (map (fun c => [c] ++ r) (skipn last t)).
Proof.
  intro t. induction n as [|n IH]; intros last fuel Hn Hl Hf;
    (destruct fuel as [|fuel]; [lia|]); simpl; rewrite search_empty_true by exact Hl.
  - assert (last = List.length t) by lia. subst. rewrite Nat.eqb_refl, skipn_all. reflexivity.
  - destruct (Nat.eqb_spec last (List.length t)); [lia|].
    rewrite HR, Nat.eqb_refl, (IH (S last) fuel) by lia.
    destruct (skipn last t) eqn:E.
    + apply (f_equal (@List.length ascii)) in E. rewrite length_skipn in E. simpl in E. lia.
    + unfold slice. replace (S last - last) with 1 by lia. rewrite E.
      assert (E' : skipn (S last) t = l).
      { rewrite <- (skipn_skipn 1 last), E. reflexivity. }
      rewrite E'. reflexivity.
Qed.

Lemma sub_empty : forall t, sub p R t = r ++ List.concat (map (fun c => [c] ++ r) t).
Proof.
  intro t. unfold sub. replace (2 * List.length t + 3) with (S (2 * List.length t + 2)) by lia.
  simpl. rewrite search_empty_false, HR, Nat.eqb_refl. unfold slice. rewrite Nat.sub_diag. simpl.
  rewrite (sub_loop_empty_true t (List.length t) 0) by lia. reflexivity.
Qed.
End EmptyPattern.

(** An empty key in a [CharacterSubstitution] table (pattern [re.escape('')],
    which matches the empty string everywhere) inserts its replacement before
    every character and at the end of the text, whatever [preserve_case]. *)
Theorem character_substitution_empty_key : forall (r : text) (pc : bool) (t : text),
  regex_transform (CharacterSubstitution [([], r)] pc) t = r ++ List.concat (map (fun c => [c] ++ r) t).
Proof.
  intros r pc t. unfold CharacterSubstitution. simpl. unfold regex_transform. simpl.
  apply sub_empty; [reflexivity|]. intros u b caps. unfold make_replacer.
  destruct pc; [|reflexivity]. unfold slice. rewrite Nat.sub_diag. reflexivity.
Qed.

(** ** Whole-word rules *)

Lemma mtch_ends_at_bound : forall ic acc t ps i caps e caps',
  mtch ic acc t (ps ++ [ABound]) i caps = Some (e, caps') -> at_boundary t e = true.
Proof.
  intros ic acc t ps. induction ps as [|a ps IH]; intros i caps e caps' H.
  - simpl in H. destruct (at_boundary t i) eqn:E; [|discriminate].
    destruct (acc i); [|discriminate]. injection H as <- _. exact E.
  - destruct a as [c|k lo| |]; simpl in H.
    + destruct (nth_error t i); [|discriminate].
      destruct (char_eq ic c a); [eapply IH; exact H|discriminate].
    + apply greedy_some in H as [j [_ H]]. eapply IH. exact H.
    + destruct (at_boundary t i); [eapply IH; exact H|discriminate].
    + eapply IH. exact H.
Qed.

Lemma search_from_some : forall p t fuel adv j b e caps,
  search_from p t adv j fuel = Some (b, e, caps) ->
  exists acc, mtch (icase p) acc t (atoms p) b [] = Some (e, caps).
Proof.
  intros p t. induction fuel as [|f IH]; intros adv j b e caps H; simpl in H; [discriminate|].
  destruct (mtch (icase p) _ t (atoms p) j []) as [[e' caps'']|] eqn:E.
  - injection H as <- <- <-. eauto.
  - eapply IH. exact H.
Qed.

(** With [word_boundary] on, every span that a [Substitution] rule matches
    (and so replaces) starts and ends at a word boundary [\b]. *)
Theorem whole_word_matches : forall m pc (r : rule) t adv i b e caps,
  In r (Substitution m true pc) -> search (fst r) t adv i = Some (b, e, caps) ->
  at_boundary t b = true /\ at_boundary t e = true.
Proof.
  intros m pc r t adv i b e caps Hr Hs.
  unfold Substitution, compile_mappings in Hr. apply in_map_iff in Hr as [kv [<- _]].
  apply search_from_some in Hs as [acc Hm]. simpl in Hm. split.
  - destruct (at_boundary t b); [reflexivity|discriminate].
  - destruct (at_boundary t b); [|discriminate]. eapply mtch_ends_at_bound. exact Hm.
Qed.

Lemma whole_word_matches_witness :
  at_boundary (txt "theater the") 8 = true /\ at_boundary (txt "theater the") 11 = true.
Proof.
  apply (whole_word_matches [(txt "the", txt "da")] true
           (compile_one true true (txt "the", txt "da")) (txt "theater the") false 0 8 11 []).
  - left. reflexivity.
  - vm_compute. reflexivity.
Defined.

(** ** Phrases match across any whitespace *)

Lemma char_eq_refl : forall ic c, char_eq ic c c = true.
Proof. intros [|] c; apply Ascii.eqb_refl. Qed.

Lemma lit_at_self : forall ic s u v, lit_at ic s (u ++ s ++ v) (List.length u) = true.
Proof.
  intros ic s. induction s as [|c s IH]; intros u v; [reflexivity|]. simpl.
  rewrite nth_error_app2, Nat.sub_diag by lia. simpl. rewrite char_eq_refl. simpl.
  replace (u ++ c :: s ++ v) with ((u ++ [c]) ++ s ++ v) by (rewrite <- app_assoc; reflexivity).
  replace (S (List.length u)) with (List.length (u ++ [c])) by (rewrite length_app; simpl; lia).
  apply IH.
Qed.

Lemma greedy_from_top : forall {A} (f : nat -> option A) lo d,
  (forall k, k < d -> f (lo + k) = None) -> greedy_from f lo d = f (lo + d).
Proof.
  intros A f lo d. induction d as [|d IH]; intro H; simpl.
  - rewrite Nat.add_0_r. reflexivity.
  - destruct (f (lo + S d)) eqn:E; [reflexivity|].
    rewrite IH by (intros; apply H; lia). rewrite H by lia. reflexivity.
Qed.

Lemma run_len_app_true : forall p (l1 l2 : text),
  Forall (fun c => p c = true) l1 -> run_len p (l1 ++ l2) = List.length l1 + run_len p l2.
Proof. intros p l1 l2 H. induction H as [|c l1 Hc _ IH]; simpl; [reflexivity|]. rewrite Hc, IH. reflexivity. Qed.

Lemma to_lower_space : forall c, is_space (to_lower c) = is_space c.
Proof.
  intro c. assert (H : forallb (fun c => Bool.eqb (is_space (to_lower c)) (is_space c)) all_ascii = true)
    by (vm_compute; reflexivity).
  pose proof (forallb_all_ascii _ H c) as Hc. cbv beta in Hc. apply Bool.eqb_prop in Hc. exact Hc.
Qed.

Lemma char_eq_space : forall ic c d, is_space c = false -> is_space d = true -> char_eq ic c d = false.
Proof.
  intros ic c d Hc Hd. unfold char_eq. destruct ic.
  - destruct (Ascii.eqb_spec (to_lower c) (to_lower d)) as [E|E]; [|reflexivity]. exfalso.
    assert (H : is_space (to_lower c) = is_space (to_lower d)) by (rewrite E; reflexivity).
    rewrite !to_lower_space in H. congruence.
  - destruct (Ascii.eqb_spec c d); [subst; congruence|reflexivity].
Qed.

Lemma mtch_join_ws_head : forall ic acc t c w ws rest i caps,
  (forall d, nth_error t i = Some d -> char_eq ic c d = false) ->
  mtch ic acc t (join_ws ((c :: w) :: ws) ++ rest) i caps = None.
Proof.
  intros ic acc t c w ws rest i caps H.
  destruct ws; simpl; destruct (nth_error t i) eqn:E; auto; rewrite (H a eq_refl); reflexivity.
Qed.

Lemma mtch_join_ws : forall ic acc prs w0 rest u v caps,
  word_ok w0 -> Forall (fun sw => sep_ok (fst sw) /\ word_ok (snd sw)) prs ->
  mtch ic acc (u ++ spaced w0 prs ++ v) (join_ws (w0 :: map snd prs) ++ rest) (List.length u) caps =
  mtch ic acc (u ++ spaced w0 prs ++ v) rest (List.length u + List.length (spaced w0 prs)) caps.
Proof.
  intros ic acc prs. induction prs as [|[sp w1] prs IH]; intros w0 rest u v caps Hw0 Hprs.
  - unfold spaced. simpl. rewrite !app_nil_r. rewrite mtch_lit, lit_at_self. reflexivity.
  - inversion Hprs as [|? ? [Hsp Hw1] Hprs']. subst. simpl in Hsp, Hw1.
    set (t := u ++ spaced w0 ((sp, w1) :: prs) ++ v).
    assert (Ht : t = u ++ w0 ++ (sp ++ spaced w1 prs ++ v)).
    { unfold t, spaced. simpl. rewrite !app_assoc. reflexivity. }
    cbn [map snd]. change (join_ws (w0 :: w1 :: map snd prs)) with
      (lit w0 ++ ARep CSpace 1 :: join_ws (w1 :: map snd prs)).
    rewrite <- app_assoc, mtch_lit.
    replace (lit_at ic w0 t (List.length u)) with true by (rewrite Ht; symmetry; apply lit_at_self).
    cbn [app mtch]. fold t.
    assert (Hskip : skipn (List.length u + List.length w0) t = sp ++ spaced w1 prs ++ v).
    { rewrite Ht, app_assoc, skipn_app, skipn_all2 by (rewrite length_app; lia).
      rewrite length_app, Nat.sub_diag. reflexivity. }
    rewrite Hskip. destruct Hw1 as [Hw1ne Hw1s]. destruct Hsp as [Hspne Hsps].
    rewrite run_len_app_true by exact Hsps.
    assert (Hr0 : run_len (class_pred CSpace) (spaced w1 prs ++ v) = 0).
    { destruct w1 as [|c w1]; [congruence|]. inversion Hw1s; subst. simpl. rewrite H1. reflexivity. }
    rewrite Hr0, Nat.add_0_r.
    destruct sp as [|s0 sp']; [congruence|].
    unfold greedy. rewrite (proj2 (Nat.ltb_ge _ _)) by (simpl; lia).
    rewrite greedy_from_top.
    + replace (1 + (List.length (s0 :: sp') - 1)) with (List.length (s0 :: sp')) by (simpl; lia).
      assert (Ht' : t = (u ++ w0 ++ s0 :: sp') ++ spaced w1 prs ++ v)
        by (rewrite Ht, <- !app_assoc; reflexivity).
      replace (List.length u + List.length w0 + List.length (s0 :: sp'))
        with (List.length (u ++ w0 ++ s0 :: sp')) by (rewrite !length_app; lia).
      rewrite Ht'. rewrite IH by (exact Hprs' || (split; assumption)).
      f_equal. unfold spaced. cbn [map List.concat fst snd]. rewrite !length_app. simpl. lia.
    + intros k Hk. destruct w1 as [|c w1]; [congruence|].
      inversion Hw1s as [|? ? Hc _]; subst.
      apply mtch_join_ws_head. intros d Hd.
      assert (Hn : nth_error t (List.length u + List.length w0 + (1 + k)) =
                   nth_error (s0 :: sp') (1 + k)).
      { rewrite Ht, app_assoc, nth_error_app2 by (rewrite length_app; lia).
        rewrite length_app, nth_error_app1 by (simpl in *; lia). f_equal. lia. }
      rewrite Hn in Hd. apply char_eq_space; [exact Hc|].
      apply nth_error_In in Hd. rewrite Forall_forall in Hsps. apply Hsps, Hd.
Qed.

Lemma mtch_join_ws_whole : forall ic acc prs w0 rest caps,
  word_ok w0 -> Forall (fun sw => sep_ok (fst sw) /\ word_ok (snd sw)) prs ->
  mtch ic acc (spaced w0 prs) (join_ws (w0 :: map snd prs) ++ rest) 0 caps =
  mtch ic acc (spaced w0 prs) rest (List.length (spaced w0 prs)) caps.
Proof.
  intros ic acc prs w0 rest caps H1 H2.
  pose proof (mtch_join_ws ic acc prs w0 rest [] [] caps H1 H2) as H.
  rewrite app_nil_r in H. exact H.
Qed.

Lemma split_ws_aux_ok : forall s cur, Forall (fun c => is_space c = false) cur ->
  Forall word_ok (split_ws_aux s cur).
Proof.
  induction s as [|c s IH]; intros cur Hc; simpl.
  - destruct cur as [|c cur]; constructor; [|constructor]. split.
    + intro E. apply (f_equal (@List.length ascii)) in E. rewrite length_rev in E. discriminate.
    + apply Forall_rev. exact Hc.
  - destruct (is_space c) eqn:E.
    + apply Forall_app. split; [|apply IH; constructor].
      destruct cur as [|c' cur]; constructor; [|constructor]. split.
      * intro E'. apply (f_equal (@List.length ascii)) in E'. rewrite length_rev in E'. discriminate.
      * apply Forall_rev. exact Hc.
    + apply IH. constructor; assumption.
Qed.

(** A [Substitution] key containing a space is compiled with [\s+] between
    its words: when the whole text is the key's words separated by any
    non-empty runs of whitespace (and, with [word_boundary], it starts and
    ends at a word boundary), the whole text is replaced, by the replacement
    adapted with [same_cap] when [preserve_case] is on. *)
Theorem phrase_matches_any_whitespace : forall k r wb pc w0 prs,
  has_space k = true -> py_split_ws k = w0 :: map snd prs ->
  Forall (fun sw => sep_ok (fst sw)) prs ->
  (wb = true -> at_boundary (spaced w0 prs) 0 = true /\
                at_boundary (spaced w0 prs) (List.length (spaced w0 prs)) = true) ->
  regex_transform (Substitution [(k, r)] wb pc) (spaced w0 prs) =
    (if pc then same_cap (spaced w0 prs) r else r).
Proof.
  intros k r wb pc w0 prs Hs Hk Hsep Hb.
  pose proof (split_ws_aux_ok k [] (Forall_nil _)) as Hw. fold (py_split_ws k) in Hw.
  rewrite Hk in Hw. inversion Hw as [|? ? Hw0 Hws]; subst.
  assert (Hprs : Forall (fun sw => sep_ok (fst sw) /\ word_ok (snd sw)) prs).
  { rewrite Forall_forall in *. intros sw Hin. split; [apply Hsep, Hin|].
    apply Hws, in_map, Hin. }
  set (t := spaced w0 prs) in *.
  assert (Hlen : List.length t <> 0).
  { unfold t, spaced. rewrite length_app. destruct Hw0 as [Hne _]. destruct w0; [congruence|simpl; lia]. }
  assert (Hm : mtch pc (fun _ => true) t (substitution_atoms k wb) 0 [] = Some (List.length t, [])).
  { unfold substitution_atoms. rewrite Hs, Hk. destruct wb.
    - destruct (Hb eq_refl) as [B0 B1]. cbn [mtch]. rewrite B0.
      unfold t. rewrite mtch_join_ws_whole by assumption. fold t. cbn [mtch]. rewrite B1. reflexivity.
    - rewrite <- (app_nil_r (join_ws _)). unfold t. rewrite mtch_join_ws_whole by assumption.
      reflexivity. }
  assert (Hend : forall acc, mtch pc acc t (substitution_atoms k wb) (List.length t) [] = None).
  { intro acc. destruct w0 as [|c w]; [destruct Hw0; congruence|].
    assert (Hn : forall d, nth_error t (List.length t) = Some d -> char_eq pc c d = false).
    { intros d Hd. rewrite (proj2 (nth_error_None _ _)) in Hd by lia. discriminate. }
    unfold substitution_atoms. rewrite Hs, Hk. destruct wb.
    - cbn [mtch]. destruct (at_boundary t (List.length t)); [|reflexivity].
      apply mtch_join_ws_head, Hn.
    - rewrite <- (app_nil_r (join_ws _)). apply mtch_join_ws_head, Hn. }
  unfold regex_transform, Substitution, compile_mappings.
  change (sort_by_len_desc [(k, r)]) with [(k, r)]. cbn [map fold_left fst snd].
  unfold compile_one. cbn [fst snd]. unfold sub.
  replace (2 * List.length t + 3) with (S (S (2 * List.length t + 1))) by lia.
  cbn [sub_loop]. unfold search. rewrite Nat.sub_0_r. cbn [search_from atoms icase].
  cbn [andb negb]. rewrite Hm.
  replace (List.length t =? 0) with false by (symmetry; apply Nat.eqb_neq; exact Hlen).
  rewrite Nat.sub_diag. cbn [search_from atoms icase]. rewrite Hend.
  rewrite skipn_all, app_nil_r. unfold make_replacer, slice. rewrite Nat.sub_0_r.
  cbn [skipn firstn app]. destruct pc; [|reflexivity].
  cbv beta. rewrite Nat.sub_0_r. cbn [skipn]. rewrite firstn_all. reflexivity.
Qed.

Lemma phrase_matches_any_whitespace_witness :
  regex_transform (Substitution [(txt "going to", txt "gonna")] true false)
    (spaced (txt "going") [(txt " " ++ [ascii_of_nat 9] ++ txt " ", txt "to")]) = txt "gonna".
Proof.
  apply (phrase_matches_any_whitespace (txt "going to") (txt "gonna") true false (txt "going")
           [(txt " " ++ [ascii_of_nat 9] ++ txt " ", txt "to")]).
  - reflexivity.
  - reflexivity.
  - repeat constructor; discriminate.
  - intros _. split; reflexivity.
Defined.

(** ** [PrefixReplacer] *)

Lemma greedy_always : forall {A} (f : nat -> option A) lo L,
  (forall j, f j <> None) -> greedy f lo L = if L <? lo then None else f L.
Proof.
  intros A f lo L H. unfold greedy. destruct (L <? lo) eqn:E; [reflexivity|].
  apply Nat.ltb_ge in E. destruct (L - lo) as [|d] eqn:D; simpl.
  - f_equal. lia.
  - destruct (f (lo + S d)) eqn:F.
    + rewrite <- F. f_equal. lia.
    + exfalso. exact (H _ F).
Qed.

Lemma prefix_mtch : forall p r t i,
  mtch true (fun _ => true) t (atoms (fst (prefix_rule p r))) i [] =
  (if at_boundary t i && lit_at true p t i &&
      (1 <=? run_len is_alpha (skipn (i + List.length p) t))
   then Some (i + List.length p + run_len is_alpha (skipn (i + List.length p) t), [])
   else None).
Proof.
  intros p r t i. cbn [prefix_rule fst atoms]. cbn [mtch].
  destruct (at_boundary t i); [|reflexivity]. rewrite mtch_lit.
  destruct (lit_at true p t i); [|reflexivity]. cbn [mtch class_pred].
  rewrite greedy_always by discriminate. simpl andb.
  destruct (run_len is_alpha (skipn (i + List.length p) t)) as [|n]; reflexivity.
Qed.

(** A [PrefixReplacer] rule [(prefix, replacement)] matches at position
    [i] exactly when [i] is a word boundary, the prefix follows (ignoring
    case) and at least one ASCII letter follows it; the match then takes the
    whole run of letters after the prefix, and is replaced by the
    replacement followed by those letters as found.  So a word made of the
    prefix in any case followed by letters becomes the replacement followed by
    the same letters. *)
Theorem prefix_rule_matches : forall p r,
  (forall t i, mtch true (fun _ => true) t (atoms (fst (prefix_rule p r))) i [] =
     (let j := i + List.length p in
      let n := run_len is_alpha (skipn j t) in
      if at_boundary t i && lit_at true p t i && (1 <=? n) then Some (j + n, []) else None)) /\
  (forall t b e caps, snd (prefix_rule p r) t b e caps = r ++ slice t (b + List.length p) e) /\
  (forall u v, map to_lower u = map to_lower p -> Forall (fun c => is_alpha c = true) u ->
     v <> [] -> Forall (fun c => is_alpha c = true) v ->
     regex_transform (PrefixReplacer_add_rule [] p r) (u ++ v) = r ++ v).
Proof.
  intros p r. split; [intros t i; apply prefix_mtch|]. split; [reflexivity|].
  intros u v Hu Hua Hv Hva. set (t := u ++ v).
  assert (Hlp : List.length p = List.length u).
  { rewrite <- (length_map to_lower p), <- Hu, length_map. reflexivity. }
  assert (Hlt : List.length t = List.length u + List.length v) by apply length_app.
  assert (Hrun : run_len is_alpha (skipn (List.length p) t) = List.length v).
  { rewrite Hlp. unfold t. rewrite skipn_app, skipn_all, Nat.sub_diag. simpl.
    pose proof (run_len_app_true is_alpha v [] Hva) as E. rewrite app_nil_r in E.
    rewrite E. simpl. lia. }
  assert (Hlit : lit_at true p t 0 = true).
  { apply lit_at_true_iff. simpl skipn. split; [lia|].
    rewrite Hlp. unfold t. rewrite firstn_app, Nat.sub_diag, firstn_all. simpl.
    rewrite app_nil_r. exact Hu. }
  assert (Hb0 : at_boundary t 0 = true).
  { unfold at_boundary, word_at. simpl. unfold t.
    destruct u as [|c u]; simpl.
    - destruct v as [|c v]; [congruence|]. inversion Hva; subst. simpl.
      unfold is_word, is_alnum. rewrite H1. reflexivity.
    - inversion Hua; subst. unfold is_word, is_alnum. rewrite H1. reflexivity. }
  assert (Hend : forall acc, mtch true acc t (atoms (fst (prefix_rule p r))) (List.length t) [] = None).
  { intro acc. cbn [prefix_rule fst atoms mtch]. destruct (at_boundary t (List.length t)); [|reflexivity].
    rewrite mtch_lit. destruct (lit_at true p t (List.length t)); [|reflexivity].
    cbn [mtch class_pred]. rewrite skipn_all2 by lia. reflexivity. }
  unfold regex_transform, PrefixReplacer_add_rule. cbn [app fold_left fst snd].
  unfold sub. replace (2 * List.length t + 3) with (S (S (2 * List.length t + 1))) by lia.
  cbn [sub_loop]. unfold search. rewrite Nat.sub_0_r. cbn [search_from icase].
  change (icase (fst (prefix_rule p r))) with true. cbn [andb negb].
  rewrite prefix_mtch, Hb0, Hlit, Nat.add_0_l, Hrun.
  destruct v as [|c0 v0]; [congruence|]. simpl (1 <=? List.length (c0 :: v0)). cbv iota.
  rewrite Hlp. replace (List.length u + List.length (c0 :: v0)) with (List.length t) by lia.
  cbn [andb].
  replace (List.length t =? 0) with false by (symmetry; apply Nat.eqb_neq; simpl in Hlt; lia).
  cbn [andb negb]. rewrite Nat.sub_diag. cbn [search_from]. rewrite Hend.
  rewrite skipn_all, app_nil_r. cbn [prefix_rule snd]. unfold slice.
  rewrite Nat.sub_0_r, Nat.add_0_l, Hlp. cbn [skipn firstn app].
  replace (List.length t - List.length u) with (List.length (c0 :: v0)) by lia.
  unfold t. rewrite skipn_app, skipn_all, Nat.sub_diag. simpl. rewrite firstn_all. reflexivity.
Qed.

Lemma prefix_rule_matches_witness :
  regex_transform (PrefixReplacer_add_rule [] (txt "un") (txt "not")) (txt "UN" ++ txt "happy") =
  txt "not" ++ txt "happy".
Proof.
  apply (prefix_rule_matches (txt "un") (txt "not")); try (repeat constructor); discriminate.
Defined.

(** ** [TextFilter.transform] *)

Lemma run_transformers_app : forall T tr (ts1 ts2 : list T) t,
  run_transformers T tr (ts1 ++ ts2) t =
  (r1 <- run_transformers T tr ts1 t ;;
   r2 <- run_transformers T tr ts2 (fst r1) ;;
   Ok (fst r2, snd r1 ++ snd r2)).
Proof.
  intros T tr ts1. induction ts1 as [|x ts1 IH]; intros ts2 t; simpl.
  - destruct (run_transformers T tr ts2 t) as [[o l]|e]; reflexivity.
  - destruct (tr x t) as [[o x']|e]; simpl; [|reflexivity].
    rewrite IH. destruct (run_transformers T tr ts1 o) as [[o1 l1]|e]; simpl; [|reflexivity].
    destruct (run_transformers T tr ts2 o1) as [[o2 l2]|e]; reflexivity.
Qed.

(** ** Pipelines built by [from_dict] *)

Lemma aug_rules_fold : forall l st,
  aug_rules (fold_left add_aug_cfg l st) =
  aug_rules st ++ map (fun r => {| punct := cfg_punctuation r; additions := cfg_additions r;
                                  frequency := get_or (cfg_frequency r) 1%Z |}) l.
Proof.
  induction l as [|r l IH]; intro st; simpl; [rewrite app_nil_r; reflexivity|].
  rewrite IH. simpl. rewrite <- app_assoc. reflexivity.
Qed.

Lemma aug_loop_empty_punct : forall rs cs t, (exists r, In r rs /\ punct r = []) ->
  exists e, aug_rules_loop rs cs t = Raise e.
Proof.
  induction rs as [|r rs IH]; intros cs t [r0 [Hin Hp]]; [destruct Hin|].
  simpl. destruct Hin as [<-|Hin].
  - unfold apply_aug_rule. rewrite Hp. exists ValueError. reflexivity.
  - destruct (apply_aug_rule cs r t) as [[t' cs']|e]; simpl; [|eauto].
    apply IH. eauto.
Qed.

Lemma run_regex_stages : forall GSt init step l t,
  Forall (fun s => match s with StAugmenter _ | StGlitch _ _ => False | _ => True end) l ->
  exists o, run_transformers (rstage GSt) (rstage_transform GSt step) (map (rstage_of GSt init) l) t =
            Ok (o, map (rstage_of GSt init) l).
Proof.
  intros GSt init step l. induction l as [|s l IH]; intros t H; [eexists; reflexivity|].
  inversion H as [|? ? Hs Hl]; subst.
  destruct s; try contradiction; simpl;
    (match goal with |- context [run_transformers _ _ _ ?u] => destruct (IH u Hl) as [o Ho] end;
     rewrite Ho; eexists; reflexivity).
Qed.

(** [from_dict] accepts a [sentence_augmentation] rule whose punctuation is
    the empty string, but the filter it builds then raises (at the latest
    from [str.split('')], a [ValueError]) on every input text. *)
Theorem from_dict_empty_punctuation_raises : forall GSt init step c l t,
  cfg_sentence_augmentation c = Some l -> (exists r, In r l /\ cfg_punctuation r = []) ->
  exists e, filter_transform GSt init step (from_dict c) t = Raise e.
Proof.
  intros GSt init step [sb ch sf pf au gl wb pc pt st] l t Ha [r [Hin Hp]]. simpl in Ha. subst au.
  unfold filter_transform, from_dict. cbn [transformers tf_prefix tf_suffix cfg_substitutions
    cfg_characters cfg_suffixes cfg_prefixes cfg_sentence_augmentation cfg_glitch
    cfg_word_boundary cfg_preserve_case cfg_prefix_text cfg_suffix_text].
  set (pre := match sb with Some m => [StSubstitution (Substitution m (get_or wb true) (get_or pc true))] | None => [] end ++
     match ch with Some m => [StCharacters (CharacterSubstitution m (get_or pc true))] | None => [] end ++
     match sf with Some m => [StSuffix (fold_left add_suffix_cfg m [])] | None => [] end ++
     match pf with Some m => [StPrefix (fold_left add_prefix_cfg m [])] | None => [] end).
  assert (Hpre : Forall (fun s => match s with StAugmenter _ | StGlitch _ _ => False | _ => True end) pre).
  { unfold pre. destruct sb, ch, sf, pf; repeat constructor. }
  assert (E : forall x y, match sb with Some m => [StSubstitution (Substitution m (get_or wb true) (get_or pc true))] | None => [] end ++
     match ch with Some m => [StCharacters (CharacterSubstitution m (get_or pc true))] | None => [] end ++
     match sf with Some m => [StSuffix (fold_left add_suffix_cfg m [])] | None => [] end ++
     match pf with Some m => [StPrefix (fold_left add_prefix_cfg m [])] | None => [] end ++ x :: y = pre ++ x :: y).
  { intros. unfold pre. rewrite <- !app_assoc. reflexivity. }
  unfold TextFilter_transform. cbn [app]. rewrite E, map_app, run_transformers_app.
  destruct (run_regex_stages GSt init step pre t Hpre) as [o Ho]. rewrite Ho. cbn [bind fst map].
  cbn [run_transformers rstage_of]. unfold rstage_transform at 1. unfold aug_transform.
  destruct (aug_loop_empty_punct (aug_rules (fold_left add_aug_cfg l aug_new))
              (counters (fold_left add_aug_cfg l aug_new)) o) as [e He].
  { rewrite aug_rules_fold. simpl. eexists. split; [apply in_map, Hin|exact Hp]. }
  rewrite He. exists e. reflexivity.
Qed.

Lemma from_dict_empty_punctuation_raises_witness :
  exists e, filter_transform unit (fun _ _ => tt) (fun _ t => (t, tt))
    (from_dict {| cfg_substitutions := Some [(txt "hello", txt "yo")];
                  cfg_characters := None; cfg_suffixes := None; cfg_prefixes := None;
                  cfg_sentence_augmentation :=
                    Some [{| cfg_punctuation := []; cfg_additions := [txt "!"];
                             cfg_frequency := None |}];
                  cfg_glitch := None; cfg_word_boundary := None; cfg_preserve_case := None;
                  cfg_prefix_text := None; cfg_suffix_text := None |})
    (txt "hello there") = Raise e.
Proof.
  eapply (from_dict_empty_punctuation_raises unit (fun _ _ => tt) (fun _ t => (t, tt)));
    [reflexivity|].
  eexists. split; [left; reflexivity|reflexivity].
Defined.

(** ** One rule of [SentenceAugmenter.transform] *)

Lemma join_cons_head : forall p g k c parts, parts <> [] ->
  join_parts p g k (cons_head c parts) = c :: join_parts p g k parts.
Proof.
  intros p g k c [|x [|y rest]] H; [congruence|reflexivity|reflexivity].
Qed.

Lemma join_nil_shift : forall p k parts,
  join_parts p (fun _ => []) k parts = join_parts p (fun _ => []) 0 parts.
Proof.
  intros p k parts. revert k. induction parts as [|x [|y rest] IH]; intro k; try reflexivity.
  rewrite !join_step. rewrite (IH (S k)), (IH 1). reflexivity.
Qed.

(** Joining the parts of [str.split(sep)] with [sep] gives the text back. *)
Lemma split_join : forall sep, sep <> [] -> forall f t, List.length t <= f ->
  join_parts sep (fun _ => []) 0 (split_fuel f sep t) = t.
Proof.
  intros sep Hsep. induction f as [|f IH]; intros [|c t] Hl; simpl in Hl; try reflexivity.
  cbn [split_fuel]. destruct (prefixb sep (c :: t)) eqn:E.
  - pose proof (split_fuel_nonnil f sep (skipn (List.length sep) (c :: t))) as Hn.
    destruct (split_fuel f sep (skipn (List.length sep) (c :: t))) as [|x rest] eqn:Es;
      [congruence|].
    rewrite join_step, join_nil_shift, <- Es, IH.
    + simpl. symmetry. apply prefixb_true, E.
    + rewrite length_skipn. simpl. destruct sep; [congruence|simpl; lia].
  - rewrite join_cons_head by apply split_fuel_nonnil. rewrite IH by lia. reflexivity.
Qed.

Lemma py_index_in : forall {A} (l : list A) k a, py_index l k = Ok a -> In a l.
Proof.
  intros A l k a. unfold py_index. destruct (nth_error l (Z.to_nat k)) eqn:E; [|discriminate].
  intro H. injection H as <-. eapply nth_error_In, E.
Qed.

Lemma always_loop_inserts : forall p adds parts i o, always_loop p adds i parts = Ok o ->
  exists f, o = join_parts p f 0 parts /\ forall k, f k = [] \/ In (f k) adds.
Proof.
  intros p adds parts. induction parts as [|x [|y rest] IH]; intros i o H.
  - injection H as <-. exists (fun _ => []). split; [reflexivity|auto].
  - injection H as <-. exists (fun _ => []). split; [reflexivity|auto].
  - rewrite always_step in H.
    destruct (py_mod (Z.of_nat i) (Z.of_nat (List.length adds))) as [k|e]; [|discriminate].
    cbn [bind] in H. destruct (py_index adds k) as [a|e] eqn:Ea; [|discriminate].
    cbn [bind] in H. destruct (always_loop p adds (S i) (y :: rest)) as [tl|e] eqn:Et;
      [|discriminate].
    cbn [bind] in H. injection H as <-.
    destruct (IH (S i) tl Et) as [f [Ef Hf]].
    exists (fun j => match j with 0 => a | S j' => f j' end). split.
    + rewrite join_step, join_parts_shift, Ef. reflexivity.
    + intros [|j]; [right; eapply py_index_in, Ea|apply Hf].
Qed.

Lemma every_nth_loop_inserts : forall p adds N parts c o c',
  every_nth_loop p adds N c parts = Ok (o, c') ->
  exists f, o = join_parts p f 0 parts /\ forall k, f k = [] \/ In (f k) adds.
Proof.
  intros p adds N parts. induction parts as [|x [|y rest] IH]; intros c o c' H.
  - injection H as <- _. exists (fun _ => []). split; [reflexivity|auto].
  - injection H as <- _. exists (fun _ => []). split; [reflexivity|auto].
  - rewrite every_nth_step in H.
    destruct (py_mod c N) as [m|e]; [|discriminate]. cbn [bind] in H.
    destruct (if (m =? 0)%Z then k <- py_mod c (Z.of_nat (List.length adds)) ;; py_index adds k
              else Ok []) as [a|e] eqn:Ea; [|discriminate].
    cbn [bind] in H. destruct (every_nth_loop p adds N (c + 1) (y :: rest)) as [[tl c1]|e] eqn:Et;
      [|discriminate].
    cbn [bind fst snd] in H. injection H as <- _.
    destruct (IH (c + 1)%Z tl c1 Et) as [f [Ef Hf]].
    exists (fun j => match j with 0 => a | S j' => f j' end). split.
    + rewrite join_step, join_parts_shift, Ef. reflexivity.
    + intros [|j]; [|apply Hf].
      destruct (m =? 0)%Z; [|injection Ea as <-; auto].
      destruct (py_mod c (Z.of_nat (List.length adds))) as [k|e]; [|discriminate].
      right. eapply py_index_in, Ea.
Qed.

(** A rule of [SentenceAugmenter.transform] that does not raise only
    inserts: its input is the parts of [text.split(punct)] joined with
    [punct], and its output is the same parts and separators with, right
    after each separator, either nothing or one of the rule's additions.
    Nothing of the input is removed or changed. *)
Theorem aug_rule_only_inserts : forall cs r t o cs',
  apply_aug_rule cs r t = Ok (o, cs') ->
  exists parts f, t = join_parts (punct r) (fun _ => []) 0 parts /\
                  o = join_parts (punct r) f 0 parts /\
                  forall k, f k = [] \/ In (f k) (additions r).
Proof.
  intros cs r t o cs' H. unfold apply_aug_rule in H.
  destruct (punct r) as [|a p'] eqn:Hp; [discriminate|].
  rewrite <- Hp in H |- *. rewrite py_split_nonempty in H by (rewrite Hp; discriminate).
  cbn [bind] in H. exists (split_fuel (List.length t) (punct r) t).
  destruct (frequency r =? 1)%Z.
  - destruct (always_loop (punct r) (additions r) 0 _) as [t'|e] eqn:Ea; [|discriminate].
    cbn [bind] in H. injection H as <- _.
    destruct (always_loop_inserts _ _ _ _ _ Ea) as [f [Ef Hf]]. exists f.
    split; [|split; assumption]. symmetry. apply split_join; [rewrite Hp; discriminate|lia].
  - destruct (every_nth_loop (punct r) (additions r) (frequency r) _ _) as [[t' c1]|e] eqn:Ea;
      [|discriminate].
    cbn [bind fst snd] in H. injection H as <- _.
    destruct (every_nth_loop_inserts _ _ _ _ _ _ _ Ea) as [f [Ef Hf]]. exists f.
    split; [|split; assumption]. symmetry. apply split_join; [rewrite Hp; discriminate|lia].
Qed.

Lemma aug_rule_only_inserts_witness :
  exists parts f, txt "Hi. Bye" = join_parts (txt ".") (fun _ => []) 0 parts /\
                  txt "Hi. Right on! Bye" = join_parts (txt ".") f 0 parts /\
                  forall k, f k = [] \/ In (f k) [txt " Right on!"].
Proof.
  apply (aug_rule_only_inserts [] {| punct := txt "."; additions := [txt " Right on!"];
                                    frequency := 1 |} (txt "Hi. Bye") _ []).
  reflexivity.
Defined.

(** A rule whose punctuation does not occur in the text leaves the text as
    it is and raises nothing, whatever its additions (even none) and its
    frequency (even 0); a rule with frequency other than 1 still stores its
    counter, unchanged, under its punctuation. *)
Theorem aug_rule_absent_punct : forall cs r t,
  punct r <> [] -> ~ contains (punct r) t ->
  apply_aug_rule cs r t =
  Ok (t, if (frequency r =? 1)%Z then cs
         else set_counter (punct r)
                (match lookup_counter (punct r) cs with Some c => c | None => 0%Z end) cs).
Proof.
  intros cs r t Hp Hn. unfold apply_aug_rule. rewrite py_split_nonempty by exact Hp.
  rewrite (split_no_occ _ Hp _ t (le_n _) Hn). cbn [bind].
  destruct (frequency r =? 1)%Z; reflexivity.
Qed.

Lemma aug_rule_absent_punct_witness :
  apply_aug_rule [] {| punct := txt "!"; additions := []; frequency := 0 |} (txt "Hi. Bye.") =
  Ok (txt "Hi. Bye.", [(txt "!", 0%Z)]).
Proof.
  apply (aug_rule_absent_punct [] {| punct := txt "!"; additions := []; frequency := 0 |}).
  - discriminate.
  - intros [u [v Hu]]. simpl in Hu.
    do 8 (destruct u as [|? u]; [discriminate|injection Hu as _ Hu]).
    destruct u; discriminate.
Defined.

(** A rule with frequency 0 raises [ZeroDivisionError] ([counter % 0]) on
    every text that contains its punctuation. *)
Theorem aug_rule_frequency_zero : forall cs r t,
  punct r <> [] -> frequency r = 0%Z -> contains (punct r) t ->
  apply_aug_rule cs r t = Raise ZeroDivisionError.
Proof.
  intros cs r t Hp Hf Hc. unfold apply_aug_rule. rewrite py_split_nonempty by exact Hp.
  destruct (split_occ _ Hp _ t (le_n _) Hc) as [x [y [rest E]]]. rewrite E, Hf.
  reflexivity.
Qed.

Lemma aug_rule_frequency_zero_witness :
  apply_aug_rule [] {| punct := txt "."; additions := [txt " A"]; frequency := 0 |}
    (txt "Hi. Bye") = Raise ZeroDivisionError.
Proof.
  apply aug_rule_frequency_zero; [discriminate|reflexivity|].
  exists (txt "Hi"), (txt " Bye"). reflexivity.
Defined.

Lemma mod_opp_eqb : forall c N, N <> 0%Z -> (c mod - N =? 0)%Z = (c mod N =? 0)%Z.
Proof.
  intros c N HN. destruct (Z.eq_dec (c mod N) 0) as [E|E].
  - rewrite (Z.mod_opp_r_z c N HN E), E. reflexivity.
  - rewrite (proj2 (Z.eqb_neq (c mod N) 0) E). apply Z.eqb_neq. intro E'.
    apply E. rewrite <- (Z.opp_involutive N). apply Z.mod_opp_r_z; [lia|exact E'].
Qed.

Lemma every_nth_loop_opp : forall p adds N parts c, N <> 0%Z ->
  every_nth_loop p adds (- N) c parts = every_nth_loop p adds N c parts.
Proof.
  intros p adds N parts. induction parts as [|x [|y rest] IH]; intros c HN; try reflexivity.
  rewrite !every_nth_step. unfold py_mod at 1 3.
  rewrite (proj2 (Z.eqb_neq (- N) 0)) by lia. rewrite (proj2 (Z.eqb_neq N 0)) by lia.
  cbn [bind]. rewrite mod_opp_eqb by exact HN. rewrite (IH (c + 1)%Z HN). reflexivity.
Qed.

(** [counter % freq] takes the sign of [freq] but is 0 for [freq] and
    [-freq] alike: a rule with frequency [-N] (for [N] other than 1 and -1)
    gives the same text and counters as the rule with frequency [N]. *)
Theorem aug_rule_negative_frequency : forall cs p adds N t,
  N <> 1%Z -> N <> (-1)%Z ->
  apply_aug_rule cs {| punct := p; additions := adds; frequency := - N |} t =
  apply_aug_rule cs {| punct := p; additions := adds; frequency := N |} t.
Proof.
  intros cs p adds N t H1 H2. unfold apply_aug_rule. cbn [punct additions frequency].
  destruct (py_split t p) as [parts|e]; [|reflexivity]. cbn [bind].
  rewrite (proj2 (Z.eqb_neq (- N) 1)) by lia. rewrite (proj2 (Z.eqb_neq N 1)) by lia.
  destruct (Z.eq_dec N 0) as [->|HN]; [reflexivity|].
  rewrite every_nth_loop_opp by exact HN. reflexivity.
Qed.

Lemma aug_rule_negative_frequency_witness :
  apply_aug_rule [] {| punct := txt "."; additions := [txt " A"]; frequency := -2 |}
    (txt "1. 2. 3. 4") =
  apply_aug_rule [] {| punct := txt "."; additions := [txt " A"]; frequency := 2 |}
    (txt "1. 2. 3. 4") /\
  apply_aug_rule [] {| punct := txt "."; additions := [txt " A"]; frequency := 2 |}
    (txt "1. 2. 3. 4") = Ok (txt "1. A 2. 3. A 4", [(txt ".", 3%Z)]).
Proof.
  split; [apply (aug_rule_negative_frequency [] (txt ".") [txt " A"] 2); lia|reflexivity].
Defined.

(** ** [DiscoFilter._build_filter] *)

Lemma text_eqb_sym : forall a b, text_eqb a b = text_eqb b a.
Proof.
  intros a b. destruct (text_eqb a b) eqn:E.
  - apply text_eqb_eq in E. subst. rewrite text_eqb_refl. reflexivity.
  - destruct (text_eqb b a) eqn:E'; [|reflexivity].
    apply text_eqb_eq in E'. subst. rewrite text_eqb_refl in E. discriminate.
Qed.

Lemma map_get_set : forall k k' v d,
  map_get k (map_set k' v d) = if text_eqb k k' then Some v else map_get k d.
Proof.
  intros k k' v d. induction d as [|[k0 v0] d IH]; simpl.
  - destruct (text_eqb k k'); reflexivity.
  - destruct (text_eqb k' k0) eqn:E0; simpl.
    + apply text_eqb_eq in E0. subst k0. destruct (text_eqb k k'); reflexivity.
    + rewrite IH. destruct (text_eqb k k') eqn:E; [|reflexivity].
      apply text_eqb_eq in E. subst k'. rewrite E0. reflexivity.
Qed.

Lemma map_get_app : forall k (d1 d2 : mapping),
  map_get k (d1 ++ d2) = match map_get k d1 with Some v => Some v | None => map_get k d2 end.
Proof.
  intros k d1 d2. induction d1 as [|[k0 v0] d1 IH]; [reflexivity|]. simpl.
  destruct (text_eqb k k0); [reflexivity|exact IH].
Qed.

(** [d.update(m)] then [d[k]]: the last binding of [k] in [m], else [d[k]]. *)
Lemma map_get_update : forall k m d,
  map_get k (dict_update d m) =
  match map_get k (rev m) with Some v => Some v | None => map_get k d end.
Proof.
  intros k m. induction m as [|[k0 v0] m IH]; intro d; [reflexivity|].
  unfold dict_update in *. simpl. rewrite IH, map_get_app, map_get_set. simpl.
  rewrite text_eqb_sym.
  destruct (map_get k (rev m)); [reflexivity|]. destruct (text_eqb k0 k); reflexivity.
Qed.

(** The one [Substitution] of the disco filter maps a key to its value in
    [words] if [words] has it, else in [exclamations], else in [phrases]:
    each later [update] overrides the earlier ones (and within one table the
    last binding of a key wins). *)
Theorem disco_mappings_priority : forall s k,
  let get o := match o with Some m => map_get k (rev m) | None => None end in
  map_get k (disco_mappings s) =
  match get (sl_words s) with
  | Some v => Some v
  | None => match get (sl_exclamations s) with Some v => Some v | None => get (sl_phrases s) end
  end.
Proof.
  intros [ph ex wo af fi] k get. unfold disco_mappings, get. cbn [sl_phrases sl_exclamations sl_words].
  destruct wo as [wo|]; [rewrite map_get_update; destruct (map_get k (rev wo)); [reflexivity|]|];
  (destruct ex as [ex|]; [rewrite map_get_update; destruct (map_get k (rev ex)); [reflexivity|]|]);
  (destruct ph as [ph|]; [rewrite map_get_update; destruct (map_get k (rev ph)); reflexivity|reflexivity]).
Qed.

(** With an empty [sentence_fillers] list, the disco filter raises
    [ZeroDivisionError] on the first text whose substituted (and
    suffix-rewritten) form contains a period: the augmenter's counter starts
    at 0, [0 % 3 == 0], and [additions[0 % 0]] divides by zero. *)
Theorem disco_empty_fillers_raise : forall GSt init step s t,
  sl_sentence_fillers s = Some [] ->
  let o1 := regex_transform (Substitution (disco_mappings s) true true) t in
  let o2 := match sl_affixes s with
            | Some (Some sm) =>
                regex_transform (fold_left (fun rs kv => SuffixReplacer_add_rule rs (fst kv) (snd kv) 2)
                                   sm []) o1
            | _ => o1 end in
  contains (txt ".") o2 ->
  filter_transform GSt init step (disco_build_filter s) t = Raise ZeroDivisionError.
Proof.
  intros GSt init step [ph ex wo af fi] t Hf o1 o2 Hc. cbn [sl_sentence_fillers] in Hf. subst fi.
  assert (Hs : apply_aug_rule [(txt ".", 0%Z)]
                 {| punct := txt "."; additions := []; frequency := 3 |} o2
               = Raise ZeroDivisionError).
  { unfold apply_aug_rule. cbn [punct additions frequency].
    rewrite py_split_nonempty by discriminate.
    destruct (split_occ (txt ".") ltac:(discriminate) _ o2 (le_n _) Hc) as [x [y [rest E]]].
    rewrite E. reflexivity. }
  unfold filter_transform, disco_build_filter, TextFilter_transform.
  cbn [transformers tf_prefix tf_suffix sl_affixes sl_sentence_fillers] in *.
  unfold o2, o1 in Hs.
  destruct af as [[sm|]|];
    cbn -[regex_transform apply_aug_rule SuffixReplacer_add_rule disco_mappings Substitution];
    unfold aug_transform;
    cbn -[regex_transform apply_aug_rule SuffixReplacer_add_rule disco_mappings Substitution];
    match goal with |- context [apply_aug_rule ?cs ?r ?o] =>
      replace (apply_aug_rule cs r o) with (@Raise (text * list (text * Z)) ZeroDivisionError)
        by (symmetry; exact Hs) end;
    reflexivity.
Qed.

Lemma disco_empty_fillers_raise_witness :
  filter_transform unit (fun _ _ => tt) (fun _ t => (t, tt))
    (disco_build_filter {| sl_phrases := None; sl_exclamations := None;
                           sl_words := Some [(txt "hello", txt "hey")];
                           sl_affixes := Some (Some [(txt "ing", txt "in'")]);
                           sl_sentence_fillers := Some [] |})
    (txt "Hello. Singing") = Raise ZeroDivisionError.
Proof.
  apply (disco_empty_fillers_raise unit (fun _ _ => tt) (fun _ t => (t, tt))); [reflexivity|].
  exists (txt "Hey"), (txt " Singin'"). vm_compute. reflexivity.
Defined.

(** ** [GlitchTransformer] at the ends of the percentage range *)

Section GlitchPercentage.
Variable Ch : Type.
Variable isalnum : Ch -> bool.
Variable GLITCH_CHARS : list Ch.
Variable St : Type.
Variable randbelow : nat -> St -> nat * St.

Local Abbreviation loop := (glitch_loop Ch isalnum GLITCH_CHARS St randbelow).

Lemma glitch_loop_zero : forall pct s t, (pct <= 0)%Z -> fst (loop pct s t) = t.
Proof.
  intros pct s t Hp. revert s. induction t as [|c t IH]; intro s; [reflexivity|].
  simpl. destruct (isalnum c).
  - unfold randint. destruct (randbelow (100 + 1 - 1) s) as [k s1].
    rewrite (proj2 (Z.leb_gt _ _)) by lia.
    specialize (IH s1). destruct (loop pct s1 t). simpl in *. congruence.
  - specialize (IH s). destruct (loop pct s t). simpl in *. congruence.
Qed.

Lemma glitch_loop_full : forall pct s t,
  (forall n s, 0 < n -> fst (randbelow n s) < n) -> (100 <= pct)%Z -> GLITCH_CHARS <> [] ->
  forall i c, nth_error t i = Some c -> isalnum c = true ->
  exists g, nth_error (fst (loop pct s t)) i = Some g /\ In g GLITCH_CHARS.
Proof.
  intros pct s t Hrb Hp Hg. revert s. induction t as [|a t IH]; intros s i c Hi Hc;
    [destruct i; discriminate|].
  simpl. destruct (isalnum a) eqn:Ea.
  - unfold randint. pose proof (Hrb (100 + 1 - 1) s ltac:(lia)) as Hk.
    destruct (randbelow (100 + 1 - 1) s) as [k s1]. simpl in Hk.
    rewrite (proj2 (Z.leb_le _ _)) by lia.
    unfold choice. pose proof (Hrb (List.length GLITCH_CHARS) s1) as Hj.
    destruct (randbelow (List.length GLITCH_CHARS) s1) as [j s2]. simpl in Hj.
    destruct (loop pct s2 t) as [o s3] eqn:Eo. destruct i as [|i].
    + exists (nth j GLITCH_CHARS a). split; [reflexivity|]. apply nth_In, Hj.
      destruct GLITCH_CHARS; [congruence|simpl; lia].
    + simpl in Hi. destruct (IH s2 i c Hi Hc) as [g Hg']. rewrite Eo in Hg'. eauto.
  - destruct i as [|i].
    + simpl in Hi. injection Hi as ->. congruence.
    + simpl in Hi. destruct (IH s i c Hi Hc) as [g Hg']. destruct (loop pct s t). eauto.
Qed.

Lemma glitch_transform_fst : forall g t,
  fst (glitch_transform Ch isalnum GLITCH_CHARS St randbelow g t) = fst (loop (percentage St g) (rng St g) t).
Proof.
  intros g t. unfold glitch_transform. destruct (loop (percentage St g) (rng St g) t). reflexivity.
Qed.

(** [randint(1, 100)] is at least 1: a stage with [percentage <= 0]
    replaces nothing and returns its input (while still drawing once per
    alphanumeric). *)
Theorem glitch_percentage_zero : forall g t, (percentage St g <= 0)%Z ->
  fst (glitch_transform Ch isalnum GLITCH_CHARS St randbelow g t) = t.
Proof. intros g t Hp. rewrite glitch_transform_fst. apply glitch_loop_zero, Hp. Qed.

(** When [_randbelow(n)] is below [n], as in [random.py], a stage with
    [percentage >= 100] replaces every alphanumeric character by one of the
    glyphs. *)
Theorem glitch_percentage_full : forall g t,
  (forall n s, 0 < n -> fst (randbelow n s) < n) -> (100 <= percentage St g)%Z ->
  GLITCH_CHARS <> [] ->
  forall i c, nth_error t i = Some c -> isalnum c = true ->
  exists x, nth_error (fst (glitch_transform Ch isalnum GLITCH_CHARS St randbelow g t)) i = Some x
            /\ In x GLITCH_CHARS.
Proof. intros g t Hrb Hp Hg. rewrite glitch_transform_fst. apply glitch_loop_full; assumption. Qed.

End GlitchPercentage.

Lemma glitch_percentage_zero_witness :
  fst (glitch_transform ascii is_alnum lcg_glitch_chars Z lcg_randbelow
         (glitch_new Z lcg_seed 0 42) (txt "Hi 2u")) = txt "Hi 2u".
Proof. apply glitch_percentage_zero. simpl. lia. Defined.

Lemma lcg_randbelow_bound : forall n s, 0 < n -> fst (lcg_randbelow n s) < n.
Proof.
  intros n s Hn. unfold lcg_randbelow. simpl.
  pose proof (Z.mod_pos_bound s (Z.of_nat n) ltac:(lia)). lia.
Qed.

Lemma glitch_percentage_full_witness :
  exists x, nth_error (fst (glitch_transform ascii is_alnum lcg_glitch_chars Z lcg_randbelow
                              (glitch_new Z lcg_seed 100 42) (txt "a b"))) 2 = Some x
            /\ In x lcg_glitch_chars.
Proof.
  apply (glitch_percentage_full ascii is_alnum lcg_glitch_chars Z lcg_randbelow
           (glitch_new Z lcg_seed 100 42) (txt "a b") lcg_randbelow_bound ltac:(simpl; lia)
           ltac:(discriminate) 2 "b"%char); reflexivity.
Defined.

(** ** Texts without any key *)

Lemma regex_transform_fixed : forall rules t,
  (forall r, In r rules -> forall j acc, j <= List.length t ->
     mtch (icase (fst r)) acc t (atoms (fst r)) j [] = None) ->
  regex_transform rules t = t.
Proof.
  induction rules as [|r rs IH]; intros t H; [reflexivity|].
  rewrite regex_transform_cons, sub_no_match by (apply H; left; reflexivity).
  apply IH. intros r' Hr'. apply H. right. exact Hr'.
Qed.

Lemma lit_at_beyond : forall ic s t i, s <> [] -> List.length t <= i -> lit_at ic s t i = false.
Proof.
  intros ic [|c s] t i Hs Hi; [congruence|]. simpl.
  rewrite (proj2 (nth_error_None t i) Hi). reflexivity.
Qed.

(** A text in which no key occurs (compared as the stage compares: ignoring
    case when [preserve_case] is on, exactly otherwise) passes through a
    [CharacterSubstitution] stage unchanged, and through a [Substitution]
    stage too when no key contains a space (a key with a space matches any
    whitespace run, see [phrase_matches_any_whitespace]). *)
Theorem no_key_occurs_unchanged : forall (m : mapping) wb pc t,
  (forall k v, In (k, v) m -> forall i, lit_at pc k t i = false) ->
  regex_transform (CharacterSubstitution m pc) t = t /\
  ((forall k v, In (k, v) m -> has_space k = false) ->
   regex_transform (Substitution m wb pc) t = t).
Proof.
  intros m wb pc t H.
  assert (Hin : forall kv, In kv (sort_by_len_desc m) -> In kv m).
  { intros kv Hkv. eapply Permutation_in; [apply sort_by_len_desc_perm|exact Hkv]. }
  split.
  - apply regex_transform_fixed. unfold CharacterSubstitution.
    intros r Hr j acc _. apply in_map_iff in Hr as [[k v] [<- Hkv]].
    cbn [fst char_compile_one atoms icase]. rewrite <- (app_nil_r (lit k)), mtch_lit.
    rewrite (H k v (Hin _ Hkv) j). reflexivity.
  - intro Hs. apply regex_transform_fixed. unfold Substitution, compile_mappings.
    intros r Hr j acc _. apply in_map_iff in Hr as [[k v] [<- Hkv]].
    cbn [fst compile_one atoms icase]. unfold substitution_atoms. cbn [fst].
    rewrite (Hs k v (Hin _ Hkv)).
    destruct wb; cbn [mtch].
    + destruct (at_boundary t j); [|reflexivity].
      rewrite mtch_lit, (H k v (Hin _ Hkv) j). reflexivity.
    + rewrite <- (app_nil_r (lit k)), mtch_lit, (H k v (Hin _ Hkv) j). reflexivity.
Qed.

Lemma no_key_occurs_unchanged_witness :
  regex_transform (CharacterSubstitution [(txt "th", txt "d")] true) (txt "Hello") = txt "Hello" /\
  regex_transform (Substitution [(txt "th", txt "d")] true true) (txt "Hello") = txt "Hello".
Proof.
  destruct (no_key_occurs_unchanged [(txt "th", txt "d")] true true (txt "Hello")) as [H1 H2].
  - intros k v [Hk|[]]. injection Hk as <- <-. intro i.
    destruct (Nat.lt_ge_cases i 5) as [Hi|Hi].
    + do 5 (destruct i as [|i]; [reflexivity|]). lia.
    + apply lit_at_beyond; [discriminate|exact Hi].
  - split; [exact H1|]. apply H2. intros k v [Hk|[]]. injection Hk as <- <-. reflexivity.
Defined.
